(** * syncgroup: a group of goroutines whose errors are collected

    A shallow embedding of [syncgroup.go].  The package is concurrent: the
    caller, every goroutine spawned by [Go]/[TryGo] and the single listener
    goroutine run interleaved.  Each of them is modelled as a small program
    counter machine; one scheduling choice ([action]) moves one of them by one
    source statement, and the properties below are proved for every schedule. *)

From Stdlib Require Import List String Ascii ZArith Lia Bool Arith Permutation.
Import ListNotations.
Open Scope string_scope.
Open Scope list_scope.
Open Scope Z_scope.

Set Implicit Arguments.

(** * The model *)

(** ** Error values

    The values of Go's [error] interface that the package builds or is handed:
    - [errorString]: the pointer returned by [errors.New]; two calls give two
      different pointers, [ptr] is the pointer;
    - [valueError]: a comparable value of a user type, such as [MyError{a}] of
      the tests;
    - [sliceError]: a value of a user type that is not comparable, such as
      a slice type or a struct with a slice field, with an [Error] method and
      no [Is] or [Unwrap] method; [s] is its text;
    - [wrapError], [wrapErrors]: what [fmt.Errorf] returns for a format with
      one, respectively several, [%w] verbs;
    - [joinError]: what [errors.Join] returns.
    Dynamic types that define their own [Is] or [Unwrap] methods are outside
    this model.  The wrappers built by the library are compared by
    content. *)
Unset Elimination Schemes.
Inductive error : Type :=
| errorString (ptr : nat) (s : string)
| valueError (s : string)
| sliceError (s : string)
| wrapError (msg : string) (err : error)
| wrapErrors (msg : string) (errs : list error)
| joinError (errs : list error).
Set Elimination Schemes.

(** The induction principle that goes under the lists of wrapped errors. *)
Section error_induction.
Variable P : error -> Prop.
Hypothesis HerrorString : forall ptr s, P (errorString ptr s).
Hypothesis HvalueError : forall s, P (valueError s).
Hypothesis HsliceError : forall s, P (sliceError s).
Hypothesis HwrapError : forall msg err, P err -> P (wrapError msg err).
Hypothesis HwrapErrors : forall msg errs, Forall P errs -> P (wrapErrors msg errs).
Hypothesis HjoinError : forall errs, Forall P errs -> P (joinError errs).

Fixpoint error_nested_ind (e : error) : P e :=
  let fix all (l : list error) : Forall P l :=
    match l with
    | [] => Forall_nil P
    | x :: l' => Forall_cons x (error_nested_ind x) (all l')
    end in
  match e with
  | errorString ptr s => HerrorString ptr s
  | valueError s => HvalueError s
  | sliceError s => HsliceError s
  | wrapError msg err => HwrapError msg (error_nested_ind err)
  | wrapErrors msg errs => HwrapErrors msg (all errs)
  | joinError errs => HjoinError (all errs)
  end.
End error_induction.

(** Equality of two error values: Go's [==] where [==] is defined.  On two
    values of a type that is not comparable [==] panics; [errors.Is] does not
    evaluate it there, see [comparable]. *)
Fixpoint error_eqb (a b : error) : bool :=
  let fix all (l m : list error) : bool :=
    match l, m with
    | [], [] => true
    | x :: l', y :: m' => error_eqb x y && all l' m'
    | _, _ => false
    end in
  match a, b with
  | errorString p s, errorString q t => Nat.eqb p q && String.eqb s t
  | valueError s, valueError t => String.eqb s t
  | sliceError s, sliceError t => String.eqb s t
  | wrapError m e, wrapError n f => String.eqb m n && error_eqb e f
  | wrapErrors m es, wrapErrors n fs => String.eqb m n && all es fs
  | joinError es, joinError fs => all es fs
  | _, _ => false
  end.

(** [reflectlite.TypeOf(e).Comparable()]: the pointers and the comparable
    values are, the values of a slice-like type are not. *)
Definition comparable (e : error) : bool :=
  match e with
  | sliceError _ => false
  | _ => true
  end.

(** [errors.Is]: [err] matches [target] when [target] is of a comparable type
    and [err] is equal to it, or when one of the errors it unwraps to (by
    [Unwrap() error] or [Unwrap() []error], depth first) matches. *)
Fixpoint Is (err target : error) : bool :=
  (comparable target && error_eqb err target) ||
  match err with
  | wrapError _ e => Is e target
  | wrapErrors _ es => existsb (fun e => Is e target) es
  | joinError es => existsb (fun e => Is e target) es
  | _ => false
  end.

Definition newline : string := String (ascii_of_nat 10) EmptyString.

(** [strings.Join]-like concatenation used by [joinError.Error]. *)
Fixpoint joinLines (l : list string) : string :=
  match l with
  | [] => ""
  | [s] => s
  | s :: l' => (s ++ newline ++ joinLines l')%string
  end.

(** The [Error() string] method. *)
Fixpoint Error (e : error) : string :=
  match e with
  | errorString _ s => s
  | valueError s => s
  | sliceError s => s
  | wrapError msg _ => msg
  | wrapErrors msg _ => msg
  | joinError es => joinLines (map Error es)
  end.

(** The [Unwrap() []error] method of an aggregate. *)
Definition Unwrap (e : error) : list error :=
  match e with
  | wrapErrors _ es => es
  | joinError es => es
  | _ => []
  end.

(** [errors.Join(errs...)]: nil values are dropped; nil when nothing is left. *)
Definition Join (errs : list (option error)) : option error :=
  let kept := flat_map (fun e => match e with Some x => [x] | None => [] end) errs in
  match kept with
  | [] => None
  | _ => Some (joinError kept)
  end.

(** [var ErrPanicRecovered = errors.New("recovered from panic")] *)
Definition ErrPanicRecovered : error := errorString 0 "recovered from panic".

(** [fmt.Errorf("%w: %w\n%s", a, b, s)] *)
Definition Errorf_w_w_s (a b : error) (s : string) : error :=
  wrapErrors (Error a ++ ": " ++ Error b ++ newline ++ s)%string [a; b].

(** [fmt.Errorf("%w: %v\n%s", a, v, s)], [v] being the [%v] text of a value
    that is not an error. *)
Definition Errorf_w_v_s (a : error) (v : string) (s : string) : error :=
  wrapError (Error a ++ ": " ++ v ++ newline ++ s)%string a.

(** ** Tasks

    What [recover()] hands to [done]: the value the task panicked with.  A
    value that is not an error is represented by its [%v] text. *)
Inductive payload : Type :=
| panicError (val : error)
| panicValue (v : string).

(** How one call of the user's [fnc] ends. *)
Inductive outcome : Type :=
| Returns (err : option error)
| Panics (msg : payload).

(** A submitted function: how it ends, and the text [debug.Stack()] yields
    when it is called from [done] in the goroutine that ran it. *)
Record task : Type := mkTask { fnc : outcome; stack : string }.

(** The error built by [done] from a recovered panic value. *)
Definition recovered (msg : payload) (trace : string) : error :=
  match msg with
  | panicError val => Errorf_w_w_s ErrPanicRecovered val trace
  | panicValue v => Errorf_w_v_s ErrPanicRecovered v trace
  end.

(** Does the task report a failure to the listener? *)
Definition fails (f : task) : bool :=
  match fnc f with
  | Returns None => false
  | Returns (Some _) => true
  | Panics _ => true
  end.

(** The failure a task reports, if any. *)
Definition failure (f : task) : option error :=
  match fnc f with
  | Returns r => r
  | Panics msg => Some (recovered msg (stack f))
  end.

(** ** The group and the goroutines around it *)

(** [SyncGroup].  [wg] is the counter of the [sync.WaitGroup]; [semaphore] is
    [None] for a nil channel and [Some (capacity, tokens)] for the buffered
    channel made by [SetLimit]; the two unbuffered channels hold no value of
    their own, only whether they have been closed (a send and its receive are
    one step of the two goroutines involved); [listeningRoutineStarter] is
    whether the [sync.Once] has fired. *)
Record SyncGroup : Type := mkSyncGroup {
  wg : Z;
  semaphore : option (Z * Z);
  finishedChan : bool;
  errorChan : bool;
  listeningStarted : bool;
  listeningRoutineStarter : bool
}.

(** Where a goroutine spawned by [Go] or [TryGo] stands. *)
Inductive gpc : Type :=
| GAcquire                 (* Go only: [if g.semaphore != nil { g.semaphore <- token }] *)
| GCall                    (* [err := fnc()] *)
| GSend (err : error)      (* [g.errorChan <- err], [err != nil] *)
| GRecover (msg : payload) (* [done]: [recover()] gave [msg]; build and send *)
| GRelease                 (* [done]: [if g.semaphore != nil { <-g.semaphore }] *)
| GWgDone                  (* [done]: [g.wg.Done()] *)
| GExit.

Record goroutine : Type := mkGoroutine { job : task; pc : gpc }.

(** Where the listener goroutine [listenToErrors] stands; it carries
    [accumulatedErrors]. *)
Inductive lpc : Type :=
| LIdle                          (* not started *)
| LRange (acc : list error)      (* [for err := range g.errorChan] *)
| LDeliver (acc : list error)    (* [g.finishedChan <- accumulatedErrors] *)
| LClose (acc : list error)      (* deferred [close(g.finishedChan)] *)
| LExit (acc : list error).

(** Where the caller stands inside [Wait], once past the first check. *)
Inductive wpc : Type :=
| WWait     (* [g.wg.Wait()] *)
| WClose    (* [close(g.errorChan)] *)
| WRecv.    (* [errs := <-g.finishedChan] and the return *)

(** The whole program: the group, the goroutines spawned so far in spawn
    order, the listener, the caller ([None] when it is between two calls), and
    whether the process died of a panic nobody recovered. *)
Record world : Type := mkWorld {
  grp : SyncGroup;
  routines : list goroutine;
  listener : lpc;
  caller : option wpc;
  crashed : bool
}.

(** The calls of the public surface and what they give back; [RPanic] is a
    panic raised in the caller's own goroutine. *)
Inductive call : Type :=
| CallGo (f : task)
| CallTryGo (f : task)
| CallSetLimit (limit : Z)
| CallWait.

Inductive result : Type :=
| RUnit
| RBool (ok : bool)
| RError (err : option error)
| RPanic (msg : string).

(** What a step shows. *)
Inductive event : Type :=
| Ret (c : call) (r : result)   (* the call [c] is over, with [r] *)
| Enter                         (* [Wait] went past its first check *)
| Sent (i : nat) (e : error)    (* goroutine [i] handed [e] to the listener *)
| Freed (i : nat)               (* goroutine [i] gave its slot back *)
| Tau                           (* any other statement *)
| Crash.                        (* a panic escaped a spawned goroutine *)

(** Who moves. *)
Inductive action : Type :=
| ACall (c : call)
| AWait
| ARoutine (i : nat)
| AListener.

(** Field updates. *)
Definition set_wg (n : Z) (g : SyncGroup) : SyncGroup :=
  mkSyncGroup n (semaphore g) (finishedChan g) (errorChan g)
              (listeningStarted g) (listeningRoutineStarter g).
Definition set_semaphore (s : option (Z * Z)) (g : SyncGroup) : SyncGroup :=
  mkSyncGroup (wg g) s (finishedChan g) (errorChan g)
              (listeningStarted g) (listeningRoutineStarter g).
Definition close_finishedChan (g : SyncGroup) : SyncGroup :=
  mkSyncGroup (wg g) (semaphore g) true (errorChan g)
              (listeningStarted g) (listeningRoutineStarter g).
Definition close_errorChan (g : SyncGroup) : SyncGroup :=
  mkSyncGroup (wg g) (semaphore g) (finishedChan g) true
              (listeningStarted g) (listeningRoutineStarter g).

Definition with_grp (g : SyncGroup) (w : world) : world :=
  mkWorld g (routines w) (listener w) (caller w) (crashed w).
Definition with_routines (rs : list goroutine) (w : world) : world :=
  mkWorld (grp w) rs (listener w) (caller w) (crashed w).
Definition with_listener (l : lpc) (w : world) : world :=
  mkWorld (grp w) (routines w) l (caller w) (crashed w).
Definition with_caller (c : option wpc) (w : world) : world :=
  mkWorld (grp w) (routines w) (listener w) c (crashed w).
Definition with_crashed (w : world) : world :=
  mkWorld (grp w) (routines w) (listener w) (caller w) true.

(** [replace i x l]: [l] with its element of index [i] set to [x]. *)
Fixpoint replace (A : Type) (i : nat) (x : A) (l : list A) : list A :=
  match l, i with
  | [], _ => []
  | _ :: l', O => x :: l'
  | y :: l', S j => y :: replace j x l'
  end.

Definition goto (i : nat) (r : goroutine) (p : gpc) (w : world) : world :=
  with_routines (replace i (mkGoroutine (job r) p) (routines w)) w.

(** ** The source, statement by statement *)

(** [New()]: nothing runs yet. *)
Definition New : world :=
  mkWorld (mkSyncGroup 0 None false false false false) [] LIdle None false.

(** [startListening]: the [sync.Once] runs its function the first time only:
    it stores [true] in [listeningStarted] and starts [listenToErrors]. *)
Definition startListening (w : world) : world :=
  if listeningRoutineStarter (grp w) then w
  else with_listener (LRange [])
         (with_grp (mkSyncGroup (wg (grp w)) (semaphore (grp w))
                                (finishedChan (grp w)) (errorChan (grp w))
                                true true) w).

(** [g.wg.Add(1); go func() {...}()] with the new goroutine at [p]. *)
Definition spawn (f : task) (p : gpc) (w : world) : world :=
  with_routines (routines w ++ [mkGoroutine f p])
    (with_grp (set_wg (wg (grp w) + 1) (grp w)) w).

(** [Go]: the caller starts the listener, counts the task and spawns it; the
    slot is taken by the new goroutine, not by the caller. *)
Definition Go (f : task) (w : world) : event * world :=
  (Ret (CallGo f) RUnit, spawn f GAcquire (startListening w)).

(** [TryGo]: the [select] takes a slot if the buffer has room and gives up
    otherwise. *)
Definition TryGo (f : task) (w : world) : event * world :=
  match semaphore (grp w) with
  | Some (capacity, tokens) =>
      if tokens <? capacity then
        (Ret (CallTryGo f) (RBool true),
         spawn f GCall
           (startListening
              (with_grp (set_semaphore (Some (capacity, tokens + 1)) (grp w)) w)))
      else (Ret (CallTryGo f) (RBool false), w)
  | None =>
      (Ret (CallTryGo f) (RBool true), spawn f GCall (startListening w))
  end.

(** [SetLimit] *)
Definition SetLimit (limit : Z) (w : world) : event * world :=
  if listeningStarted (grp w) then
    (Ret (CallSetLimit limit) (RPanic "cannot set limit after starting goroutines"), w)
  else if limit <=? 0 then
    (Ret (CallSetLimit limit) RUnit, with_grp (set_semaphore None (grp w)) w)
  else
    (Ret (CallSetLimit limit) RUnit, with_grp (set_semaphore (Some (limit, 0)) (grp w)) w).

(** The tail of [Wait]: nil for an empty slice, [errors.Join] otherwise. *)
Definition Wait_result (errs : list error) : option error :=
  if (Z.of_nat (List.length errs) =? 0) then None else Join (map Some errs).

(** [Wait], one statement at a time.  The receive from [finishedChan] of an
    open channel is the listener's step [LDeliver]; here is the receive from
    a closed one, which yields a nil slice. *)
Definition Wait (w : world) : option (event * world) :=
  match caller w with
  | None =>
      if negb (listeningStarted (grp w)) then Some (Ret CallWait (RError None), w)
      else Some (Enter, with_caller (Some WWait) w)
  | Some WWait =>
      if wg (grp w) =? 0 then Some (Tau, with_caller (Some WClose) w) else None
  | Some WClose =>
      if errorChan (grp w) then
        Some (Ret CallWait (RPanic "close of closed channel"), with_caller None w)
      else Some (Tau, with_caller (Some WRecv) (with_grp (close_errorChan (grp w)) w))
  | Some WRecv =>
      if finishedChan (grp w) then
        Some (Ret CallWait (RError (Wait_result [])), with_caller None w)
      else None
  end.

(** [listenToErrors].  The receive of one error is the sender's step; the
    [range] loop ends when [errorChan] is closed; the send on [finishedChan]
    needs the caller at its receive, and completes the caller's [Wait]. *)
Definition listenToErrors (w : world) : option (event * world) :=
  match listener w with
  | LIdle => None
  | LRange acc =>
      if errorChan (grp w) then Some (Tau, with_listener (LDeliver acc) w) else None
  | LDeliver acc =>
      if finishedChan (grp w) then Some (Crash, with_crashed w)
      else match caller w with
           | Some WRecv =>
               Some (Ret CallWait (RError (Wait_result acc)),
                     with_caller None (with_listener (LClose acc) w))
           | _ => None
           end
  | LClose acc =>
      if finishedChan (grp w) then Some (Crash, with_crashed w)
      else Some (Tau, with_listener (LExit acc) (with_grp (close_finishedChan (grp w)) w))
  | LExit _ => None
  end.

(** [g.errorChan <- err] by goroutine [i], which goes on at [next]: a panic
    on a closed channel (handled by [closed]), a hand-over to the listener in
    its loop, and no step otherwise. *)
Definition send (i : nat) (r : goroutine) (err : error) (next : gpc)
    (closed : event * world) (w : world) : option (event * world) :=
  if errorChan (grp w) then Some closed
  else match listener w with
       | LRange acc =>
           Some (Sent i err, with_listener (LRange (acc ++ [err])) (goto i r next w))
       | _ => None
       end.

(** [done], the deferred call of every spawned goroutine: a recovered panic
    is turned into an error and sent (a panic of that send is not recovered by
    anybody); then the slot is given back and the task counted as over. *)
Definition done (i : nat) (r : goroutine) (w : world) : option (event * world) :=
  match pc r with
  | GRecover msg =>
      send i r (recovered msg (stack (job r))) GRelease (Crash, with_crashed w) w
  | GRelease =>
      match semaphore (grp w) with
      | None => Some (Tau, goto i r GWgDone w)
      | Some (capacity, tokens) =>
          if 0 <? tokens then
            Some (Freed i,
                  goto i r GWgDone
                    (with_grp (set_semaphore (Some (capacity, tokens - 1)) (grp w)) w))
          else None
      end
  | GWgDone =>
      if wg (grp w) - 1 <? 0 then Some (Crash, with_crashed w)
      else Some (Tau, goto i r GExit (with_grp (set_wg (wg (grp w) - 1) (grp w)) w))
  | _ => None
  end.

(** The panic value of a send on a closed channel, a [runtime.Error]. *)
Definition sendOnClosed : error := valueError "send on closed channel".

(** The body of the goroutine spawned by [Go] (from [GAcquire]) and by
    [TryGo] (from [GCall]), followed by [done]. *)
Definition body (i : nat) (r : goroutine) (w : world) : option (event * world) :=
  match pc r with
  | GAcquire =>
      match semaphore (grp w) with
      | None => Some (Tau, goto i r GCall w)
      | Some (capacity, tokens) =>
          if tokens <? capacity then
            Some (Tau,
                  goto i r GCall
                    (with_grp (set_semaphore (Some (capacity, tokens + 1)) (grp w)) w))
          else None
      end
  | GCall =>
      match fnc (job r) with
      | Returns None => Some (Tau, goto i r GRelease w)
      | Returns (Some err) => Some (Tau, goto i r (GSend err) w)
      | Panics msg => Some (Tau, goto i r (GRecover msg) w)
      end
  | GSend err =>
      send i r err GRelease (Tau, goto i r (GRecover (panicError sendOnClosed)) w) w
  | _ => done i r w
  end.

(** One step of the program under the scheduling choice [a]; [None] when the
    chosen goroutine is blocked, over, or absent.  A dead process does not
    move, and the caller issues a new call only between two calls. *)
Definition step (w : world) (a : action) : option (event * world) :=
  if crashed w then None
  else match a with
       | ACall c =>
           match caller w with
           | Some _ => None
           | None =>
               match c with
               | CallGo f => Some (Go f w)
               | CallTryGo f => Some (TryGo f w)
               | CallSetLimit limit => Some (SetLimit limit w)
               | CallWait => Wait w
               end
           end
       | AWait =>
           match caller w with
           | Some _ => Wait w
           | None => None
           end
       | ARoutine i =>
           match nth_error (routines w) i with
           | Some r => body i r w
           | None => None
           end
       | AListener => listenToErrors w
       end.

(** A run under a schedule, with the events it shows. *)
Fixpoint run (w : world) (schedule : list action) : option (list event * world) :=
  match schedule with
  | [] => Some ([], w)
  | a :: rest =>
      match step w a with
      | None => None
      | Some (ev, w') =>
          match run w' rest with
          | None => None
          | Some (evs, w'') => Some (ev :: evs, w'')
          end
      end
  end.

(** ** Texts *)


(** [sub] occurs in [s]. *)
Definition occurs (sub s : string) : Prop :=
  exists before after, s = (before ++ sub ++ after)%string.

(** ** Histories *)

Arguments Wait_result : simpl never.
Arguments recovered : simpl never.

(** The tasks submitted by the calls of a history: every [Go], and every
    [TryGo] that returned true. *)
Definition submission (ev : event) : list task :=
  match ev with
  | Ret (CallGo f) _ => [f]
  | Ret (CallTryGo f) (RBool true) => [f]
  | _ => []
  end.
Definition submitted (evs : list event) : list task := flat_map submission evs.

(** The errors handed to the listener, in the order it received them. *)
Definition report (ev : event) : list error :=
  match ev with
  | Sent _ e => [e]
  | _ => []
  end.
Definition reports (evs : list event) : list error := flat_map report evs.

(** How many of the tasks fail, by a returned error or by a panic. *)
Definition failing (fs : list task) : nat := List.length (filter fails fs).

(** The contents of the listener's [accumulatedErrors]. *)
Definition accumulated (l : lpc) : list error :=
  match l with
  | LIdle => []
  | LRange acc => acc
  | LDeliver acc => acc
  | LClose acc => acc
  | LExit acc => acc
  end.

(** The worlds a program can be in: those some schedule leads to from [New],
    with the history of events shown on the way. *)
Definition reaches (evs : list event) (w : world) : Prop :=
  exists schedule, run New schedule = Some (evs, w).

(** ** Counting goroutines *)

Definition total (f : goroutine -> nat) (l : list goroutine) : nat :=
  list_sum (map f l).

(** Not yet counted as over by [wg.Done()]. *)
Definition alive (r : goroutine) : nat :=
  match pc r with GExit => 0 | _ => 1 end%nat.

(** Holding a slot of the semaphore. *)
Definition holds (r : goroutine) : nat :=
  match pc r with
  | GCall | GSend _ | GRecover _ | GRelease => 1
  | _ => 0
  end%nat.

(** Still to hand a failure to the listener. *)
Definition owes (r : goroutine) : nat :=
  match pc r with
  | GAcquire | GCall => if fails (job r) then 1 else 0
  | GSend _ | GRecover _ => 1
  | _ => 0
  end%nat.

Arguments alive !r /.
Arguments holds !r /.
Arguments owes !r /.

(** ** What every reachable world satisfies *)

(** A goroutine about to send holds the error its task ended with; one
    recovering from a panic holds the task's panic value, unless the panic
    came from a send on the closed channel. *)
Definition sound (closed : bool) (r : goroutine) : Prop :=
  match pc r with
  | GSend e => fnc (job r) = Returns (Some e)
  | GRecover msg => fnc (job r) = Panics msg \/ closed = true
  | _ => True
  end.

Arguments sound closed !r /.

(** The invariant of the worlds: the [sync.Once] and [listeningStarted] go
    together, and with the existence of the listener and of spawned
    goroutines; [errorChan] is closed only once the listener has been
    started, and the listener is in its loop as long as it is open;
    [finishedChan] is closed by the listener's exit only; a caller at its
    receive finds the listener before its hand-over; [wg] counts the
    goroutines that are not over, and none is left once [wg.Wait()] is
    passed; the semaphore holds one token for each goroutine between the
    acquisition and the release of its slot. *)
Record consistent (w : world) : Prop := mkConsistent {
  once_fired : listeningRoutineStarter (grp w) = listeningStarted (grp w);
  idle_iff : listener w = LIdle <-> listeningStarted (grp w) = false;
  none_iff : routines w = [] <-> listeningStarted (grp w) = false;
  unstarted : listeningStarted (grp w) = false -> errorChan (grp w) = false;
  open_chan :
    errorChan (grp w) = false ->
    crashed w = false /\ (listener w = LIdle \/ exists acc, listener w = LRange acc);
  closed_fin : finishedChan (grp w) = true -> exists acc, listener w = LExit acc;
  receiving :
    caller w = Some WRecv ->
    errorChan (grp w) = true /\ crashed w = false /\
    exists acc, listener w = LRange acc \/ listener w = LDeliver acc;
  in_wait : caller w <> None -> listeningStarted (grp w) = true;
  counted : wg (grp w) = Z.of_nat (total alive (routines w));
  quiet :
    caller w = Some WClose \/ caller w = Some WRecv ->
    total alive (routines w) = 0%nat;
  slots :
    match semaphore (grp w) with
    | Some (capacity, tokens) =>
        0 < capacity /\ tokens <= capacity /\
        tokens = Z.of_nat (total holds (routines w))
    | None => True
    end;
  pcs : Forall (sound (errorChan (grp w))) (routines w)
}.

(** ** What the history tells about the world *)

(** The goroutines are those of the submitted tasks, in order; the listener
    has accumulated the errors sent to it, in order; as long as [errorChan]
    is open, every failing task has handed over its failure or still will;
    once the caller is at its receive, all have. *)
Record agrees (evs : list event) (w : world) : Prop := mkAgrees {
  jobs_submitted : map job (routines w) = submitted evs;
  acc_reports : accumulated (listener w) = reports evs;
  still_owed :
    errorChan (grp w) = false ->
    (total owes (routines w) + List.length (reports evs)
     = failing (submitted evs))%nat;
  all_reported :
    caller w = Some WRecv ->
    List.length (reports evs) = failing (submitted evs)
}.

(** ** The admission gate *)

(** Is the semaphore at capacity? *)
Definition full (g : SyncGroup) : bool :=
  match semaphore g with
  | Some (capacity, tokens) => capacity <=? tokens
  | None => false
  end.

(** Scenarios used as concrete inputs. *)
Definition errBoom : error := errorString 1 "boom".
Definition succeeding : task := mkTask (Returns None) "goroutine 5 [running]:".
Definition returningBoom : task := mkTask (Returns (Some errBoom)) "goroutine 6 [running]:".
Definition panickingText : task :=
  mkTask (Panics (panicValue "this is message from panic")) "goroutine 7 [running]:".
Definition panickingBoom : task :=
  mkTask (Panics (panicError errBoom)) "goroutine 8 [running]:".

(** [SetLimit(1)] then one [TryGo]: the only slot is taken. *)
Definition gateTakenSchedule : list action :=
  [ACall (CallSetLimit 1); ACall (CallTryGo succeeding)].
Definition gateTakenHistory : list event :=
  [Ret (CallSetLimit 1) RUnit; Ret (CallTryGo succeeding) (RBool true)].
Definition gateTaken : world :=
  mkWorld (mkSyncGroup 1 (Some (1, 1)) false false true true)
          [mkGoroutine succeeding GCall] (LRange []) None false.

(** C5, as the specification has it: with the semaphore at capacity the
    caller of [Go] makes no step. *)
Definition Go_blocks_the_caller : Prop :=
  forall evs w f,
    reaches evs w -> caller w = None -> full (grp w) = true ->
    step w (ACall (CallGo f)) = None.

(** The answers of the [TryGo] calls of a history, in order. *)
Definition tryGoResult (ev : event) : list bool :=
  match ev with
  | Ret (CallTryGo _) (RBool ok) => [ok]
  | _ => []
  end.
Definition tryGoResults (evs : list event) : list bool := flat_map tryGoResult evs.

(** Has a slot been given back? *)
Definition freed (ev : event) : bool :=
  match ev with
  | Freed _ => true
  | _ => false
  end.

(** The caller does nothing but [TryGo]; the goroutines run as they like. *)
Definition onlyTryGo (a : action) : bool :=
  match a with
  | ACall (CallTryGo _) => true
  | ARoutine _ => true
  | AListener => true
  | _ => false
  end.

(** After [SetLimit(limit)], under [TryGo] calls only and as long as no slot
    is given back: the semaphore holds one token per [TryGo] that returned
    true, these calls come first, and a call returned false only with the
    semaphore at capacity. *)
Record gated (limit : Z) (evs : list event) (w : world) : Prop := mkGated {
  taken :
    exists t k : nat,
      semaphore (grp w) = Some (limit, Z.of_nat t) /\
      Z.of_nat t <= limit /\
      tryGoResults evs = repeat true t ++ repeat false k /\
      (k <> 0%nat -> Z.of_nat t = limit);
  none_waiting : Forall (fun r => pc r <> GAcquire) (routines w)
}.

(** Four [TryGo] calls under [SetLimit(2)], the first task running meanwhile
    without finishing. *)
Definition fourTryGo : list action :=
  [ACall (CallTryGo succeeding); ARoutine 0; ACall (CallTryGo returningBoom);
   ACall (CallTryGo panickingText); ACall (CallTryGo succeeding)].
Definition fourTryGoEvents : list event :=
  Eval cbv in
    match run (snd (SetLimit 2 New)) fourTryGo with
    | Some (evs, _) => evs
    | None => []
    end.
Definition fourTryGoWorld : world :=
  Eval cbv in
    match run (snd (SetLimit 2 New)) fourTryGo with
    | Some (_, w) => w
    | None => New
    end.

(** ** What [Wait] returns *)

(** Three failing tasks and a succeeding one, run to the point where the
    listener is about to hand its list to the caller waiting in [Wait]. *)
Definition fourTasks : list action :=
  [ACall (CallGo returningBoom); ACall (CallGo panickingText);
   ACall (CallTryGo panickingBoom); ACall (CallGo succeeding);
   ARoutine 1; ARoutine 1; ARoutine 1; ARoutine 1; ARoutine 1;
   ACall CallWait;
   ARoutine 0; ARoutine 2; ARoutine 3; ARoutine 0; ARoutine 2; ARoutine 3;
   ARoutine 0; ARoutine 2; ARoutine 3; ARoutine 0; ARoutine 2; ARoutine 3;
   ARoutine 0;
   AWait; AWait; AListener].
Definition fourTasksEvents : list event :=
  Eval cbv in
    match run New fourTasks with
    | Some (evs, _) => evs
    | None => []
    end.
Definition fourTasksWorld : world :=
  Eval cbv in
    match run New fourTasks with
    | Some (_, w) => w
    | None => New
    end.
Definition fourTasksReports : list error :=
  [recovered (panicValue "this is message from panic") "goroutine 7 [running]:";
   recovered (panicError errBoom) "goroutine 8 [running]:";
   errBoom].

(** ** Panics *)

(** The goroutine of [panic(errBoom)] about to report, the listener having
    received nothing yet. *)
Definition panicSchedule : list action :=
  [ACall (CallGo panickingBoom); ARoutine 0; ARoutine 0].
Definition panicEvents : list event :=
  [Ret (CallGo panickingBoom) RUnit; Tau; Tau].
Definition panicWorld : world :=
  mkWorld (mkSyncGroup 1 None false false true true)
          [mkGoroutine panickingBoom (GRecover (panicError errBoom))]
          (LRange []) None false.

(** ** A second [Wait] *)

(** A call of [Wait] has returned a value on a group tasks had been
    submitted to. *)
Definition drained (evs : list event) : Prop :=
  exists evs1 r evs2,
    evs = evs1 ++ Ret CallWait (RError r) :: evs2 /\ submitted evs1 <> [].

(** One failing task, [Wait], and the world after [Wait] returned. *)
Definition oneWait : list action :=
  [ACall (CallGo returningBoom);
   ARoutine 0; ARoutine 0; ARoutine 0; ARoutine 0; ARoutine 0;
   ACall CallWait; AWait; AWait; AListener; AListener; AListener].
Definition oneWaitEvents : list event :=
  Eval cbv in
    match run New oneWait with
    | Some (evs, _) => evs
    | None => []
    end.
Definition oneWaitWorld : world :=
  Eval cbv in
    match run New oneWait with
    | Some (_, w) => w
    | None => New
    end.

(** ** [Wait] does return *)

(** The statements a goroutine still has to run. *)
Definition remaining (r : goroutine) : nat :=
  match pc r with
  | GAcquire => 5
  | GCall => 4
  | GSend _ => 3
  | GRecover _ => 3
  | GRelease => 2
  | GWgDone => 1
  | GExit => 0
  end%nat.

(** Past the acquisition of its slot, and not over. *)
Definition ready (r : goroutine) : nat :=
  match pc r with
  | GAcquire | GExit => 0
  | _ => 1
  end%nat.

Arguments remaining !r /.
Arguments ready !r /.

(** ** Further accounts of the goroutines *)

(** The failure a goroutine has still to hand to the listener. *)
Definition due (r : goroutine) : list error :=
  match pc r with
  | GAcquire | GCall =>
      match failure (job r) with
      | Some e => [e]
      | None => []
      end
  | GSend e => [e]
  | GRecover msg => [recovered msg (stack (job r))]
  | _ => []
  end.

Arguments due !r /.

(** The failures of a list of tasks, in the order of the tasks. *)
Definition failures (fs : list task) : list error :=
  flat_map (fun f => match failure f with Some e => [e] | None => [] end) fs.

(** Every failure of a submitted task has been received by the listener or
    is still due by its goroutine, and nothing else has; once the caller is
    at its receive all have been received. *)
Record accounted (evs : list event) (w : world) : Prop := mkAccounted {
  received_or_due :
    errorChan (grp w) = false ->
    Permutation (reports evs ++ flat_map due (routines w)) (failures (submitted evs));
  all_received :
    caller w = Some WRecv ->
    Permutation (reports evs) (failures (submitted evs))
}.

(** The errors held by what [Wait] returned: none for nil. *)
Definition entries (r : option error) : list error :=
  match r with
  | Some agg => Unwrap agg
  | None => []
  end.

(** Is the goroutine over? *)
Definition exited (r : goroutine) : bool :=
  match pc r with
  | GExit => true
  | _ => false
  end.

(** The limit in force after a history: the one of the last [SetLimit] that
    returned, none when that limit was not positive or no call was made. *)
Definition limitOf (ev : event) (before : option Z) : option Z :=
  match ev with
  | Ret (CallSetLimit limit) RUnit => if limit <=? 0 then None else Some limit
  | _ => before
  end.
Definition limitInForce (evs : list event) : option Z :=
  fold_left (fun before ev => limitOf ev before) evs None.

(** The capacity of a semaphore, when there is one. *)
Definition capacityOf (g : SyncGroup) : option Z :=
  match semaphore g with
  | Some (capacity, _) => Some capacity
  | None => None
  end.

(** A task submitted after [Wait] has returned: one failing task, [Wait],
    then the same task again, run until its goroutine dies. *)
Definition lateFailure : list action :=
  [ACall (CallGo returningBoom);
   ARoutine 0; ARoutine 0; ARoutine 0; ARoutine 0; ARoutine 0;
   ACall CallWait; AWait; AWait; AListener; AListener; AListener;
   ACall (CallGo returningBoom);
   ARoutine 1; ARoutine 1; ARoutine 1; ARoutine 1].
Definition lateFailureEvents : list event :=
  Eval cbv in
    match run New lateFailure with
    | Some (evs, _) => evs
    | None => []
    end.
Definition lateFailureWorld : world :=
  Eval cbv in
    match run New lateFailure with
    | Some (_, w) => w
    | None => New
    end.

(** ** The aggregate of the earlier revision

    [GroupError], what [Wait] returned before [errors.Join] was used: a
    wrapper of the slice of errors; an entry may be a nil [error]. *)
Record GroupError : Type := mkGroupError { Errs : list (option error) }.

(** [GroupError.Error]: the texts of the entries that are not nil, each
    followed by [";"], written one after the other to a [strings.Builder]. *)
Definition GroupError_Error (e : GroupError) : string :=
  fold_left
    (fun builder err =>
       match err with
       | Some x => ((builder ++ Error x) ++ ";")%string
       | None => builder
       end)
    (Errs e) ""%string.

(** ** The helpers of the tests

    [testutil.EqualSlices]: how the call ends.  [t.Fatalf] stops the test at
    once, so only the first difference is reported. *)
Inductive verdict : Type :=
| Pass
| FatalLength (expected actual : nat)   (* "expected slice length %d, got %d" *)
| FatalAt (i : nat).                    (* "at index %d: expected %v, got %v" *)

Section EqualSlices.
Variables T1 T2 : Type.
(** [reflect.DeepEqual] on an expected and an actual element. *)
Variable DeepEqual : T1 -> T2 -> bool.

(** The loop [for i := range expected], from index [i] on. *)
Fixpoint compareFrom (i : nat) (expected : list T1) (actual : list T2) : verdict :=
  match expected, actual with
  | x :: expected', y :: actual' =>
      if DeepEqual x y then compareFrom (S i) expected' actual' else FatalAt i
  | _, _ => Pass
  end.

Definition EqualSlices (expected : list T1) (actual : list T2) : verdict :=
  if Nat.eqb (List.length expected) (List.length actual)
  then compareFrom 0 expected actual
  else FatalLength (List.length expected) (List.length actual).
End EqualSlices.

(** The world the listener's hand-over of [fourTasks] leads to. *)
Definition fourTasksAfter : world :=
  with_caller None (with_listener (LClose fourTasksReports) fourTasksWorld).

(** ** Errors of a type that is not comparable, and a [Wait] before [Go] *)





(** [Wait] on the new group, then [Go] of a task, then [Wait] again, up to
    the listener's hand-over. *)
Definition waitGoWait : list action :=
  [ACall CallWait; ACall (CallGo succeeding);
   ARoutine 0; ARoutine 0; ARoutine 0; ARoutine 0;
   ACall CallWait; AWait; AWait; AListener].
Definition waitGoWaitEvents : list event :=
  Eval cbv in
    match run New waitGoWait with
    | Some (evs, _) => evs
    | None => []
    end.
Definition waitGoWaitWorld : world :=
  Eval cbv in
    match run New waitGoWait with
    | Some (_, w) => w
    | None => New
    end.

(** * Properties *)

(** ** Facts on error values *)


Lemma error_eqb_eq (a b : error) : error_eqb a b = true -> a = b.
Proof.
  revert b; induction a using error_nested_ind; intros [] Hab; simpl in Hab;
    try discriminate.
  - apply andb_prop in Hab as [Hp Hs].
    apply Nat.eqb_eq in Hp; apply String.eqb_eq in Hs; congruence.
  - apply String.eqb_eq in Hab; congruence.
  - apply String.eqb_eq in Hab; congruence.
  - apply andb_prop in Hab as [Hm He].
    apply String.eqb_eq in Hm; apply IHa in He; congruence.
  - apply andb_prop in Hab as [Hm He]. apply String.eqb_eq in Hm; subst.
    f_equal. revert errs0 He.
    induction H as [|x l Hx _ IH]; intros [|y m] He; try discriminate; [reflexivity|].
    apply andb_prop in He as [Hxy Hl]. f_equal; auto.
  - f_equal. revert errs0 Hab.
    induction H as [|x l Hx _ IH]; intros [|y m] He; try discriminate; [reflexivity|].
    apply andb_prop in He as [Hxy Hl]. f_equal; auto.
Qed.

Lemma Is_unfold (err target : error) :
  Is err target
  = (comparable target && error_eqb err target) ||
    match err with
    | wrapError _ e => Is e target
    | wrapErrors _ es => existsb (fun e => Is e target) es
    | joinError es => existsb (fun e => Is e target) es
    | _ => false
    end.
Proof. destruct err; reflexivity. Qed.


(** A value of a type that is not comparable matches nothing, itself
    included. *)
Lemma Is_sliceError (s : string) (target : error) : Is (sliceError s) target = false.
Proof. destruct target; simpl; try reflexivity; now rewrite ?andb_false_r. Qed.


Lemma Join_map_Some (errs : list error) :
  Join (map Some errs) = match errs with [] => None | _ => Some (joinError errs) end.
Proof.
  unfold Join.
  assert (H : flat_map (fun e : option error =>
                          match e with Some x => [x] | None => [] end)
                       (map Some errs) = errs).
  { induction errs as [|x l IH]; simpl; [reflexivity | now rewrite IH]. }
  rewrite H. reflexivity.
Qed.

Lemma Wait_result_spec (errs : list error) :
  Wait_result errs = match errs with [] => None | _ => Some (joinError errs) end.
Proof.
  unfold Wait_result. destruct errs as [|x l]; [reflexivity|].
  replace (Z.of_nat (List.length (x :: l)) =? 0) with false
    by (symmetry; apply Z.eqb_neq; simpl List.length; lia).
  apply Join_map_Some.
Qed.




(** The error built from the panic value [sliceError s] does not match that
    value. *)
Lemma Is_recovered_sliceError (s : string) (trace : string) :
  Is (recovered (panicError (sliceError s)) trace) (sliceError s) = false.
Proof. reflexivity. Qed.

(** ** Runs and what they have shown *)

Lemma run_app (s1 s2 : list action) (w : world) :
  run w (s1 ++ s2)
  = match run w s1 with
    | None => None
    | Some (evs1, w1) =>
        match run w1 s2 with
        | None => None
        | Some (evs2, w2) => Some (evs1 ++ evs2, w2)
        end
    end.
Proof.
  revert w; induction s1 as [|a s1 IH]; intros w; simpl.
  - destruct (run w s2) as [[evs2 w2]|]; reflexivity.
  - destruct (step w a) as [[ev w']|]; [|reflexivity].
    rewrite IH. destruct (run w' s1) as [[evs1 w1]|]; [|reflexivity].
    destruct (run w1 s2) as [[evs2 w2]|]; reflexivity.
Qed.

Lemma reaches_New : reaches [] New.
Proof. now exists []. Qed.

Lemma reaches_step (evs : list event) (w : world) (a : action) (ev : event) (w' : world) :
  reaches evs w -> step w a = Some (ev, w') -> reaches (evs ++ [ev]) w'.
Proof.
  intros [s Hs] Hstep. exists (s ++ [a]).
  rewrite run_app, Hs. simpl. now rewrite Hstep.
Qed.

Lemma reaches_run (evs : list event) (w : world) (s : list action)
    (evs' : list event) (w' : world) :
  reaches evs w -> run w s = Some (evs', w') -> reaches (evs ++ evs') w'.
Proof.
  intros [s0 Hs] Hrun. exists (s0 ++ s). now rewrite run_app, Hs, Hrun.
Qed.

(** Proof by invariant over the runs. *)
Lemma reaches_ind (P : list event -> world -> Prop) :
  P [] New ->
  (forall evs w a ev w',
      reaches evs w -> P evs w -> step w a = Some (ev, w') -> P (evs ++ [ev]) w') ->
  forall evs w, reaches evs w -> P evs w.
Proof.
  intros H0 Hstep evs w [s Hs]. revert evs w Hs.
  induction s as [|a s IH] using rev_ind; intros evs w Hs.
  - simpl in Hs. now inversion Hs.
  - rewrite run_app in Hs.
    destruct (run New s) as [[evs1 w1]|] eqn:H1; [|discriminate].
    simpl in Hs. destruct (step w1 a) as [[ev w']|] eqn:Ha; [|discriminate].
    inversion Hs; subst. eapply Hstep; eauto. now exists s.
Qed.

Lemma submitted_app (evs1 evs2 : list event) :
  submitted (evs1 ++ evs2) = submitted evs1 ++ submitted evs2.
Proof. apply flat_map_app. Qed.

Lemma reports_app (evs1 evs2 : list event) :
  reports (evs1 ++ evs2) = reports evs1 ++ reports evs2.
Proof. apply flat_map_app. Qed.

Lemma failing_app (fs1 fs2 : list task) :
  failing (fs1 ++ fs2) = (failing fs1 + failing fs2)%nat.
Proof. unfold failing. now rewrite filter_app, length_app. Qed.

(** ** Counting goroutines *)

Lemma total_app (f : goroutine -> nat) (l1 l2 : list goroutine) :
  total f (l1 ++ l2) = (total f l1 + total f l2)%nat.
Proof. unfold total. now rewrite map_app, list_sum_app. Qed.

Lemma total_replace (f : goroutine -> nat) (l : list goroutine) (i : nat)
    (r x : goroutine) :
  nth_error l i = Some r ->
  (total f (replace i x l) + f r = total f l + f x)%nat.
Proof.
  revert i; induction l as [|y l IH]; intros [|i] H; simpl in H; try discriminate.
  - inversion H; subst. unfold total; simpl. lia.
  - apply IH in H. unfold total in *; simpl. lia.
Qed.

Lemma map_job_replace (l : list goroutine) (i : nat) (r : goroutine) (p : gpc) :
  nth_error l i = Some r ->
  map job (replace i (mkGoroutine (job r) p) l) = map job l.
Proof.
  revert i; induction l as [|y l IH]; intros [|i] H; simpl in H; try discriminate.
  - inversion H; subst. reflexivity.
  - simpl. f_equal. now apply IH.
Qed.

Lemma Forall_replace (P : goroutine -> Prop) (l : list goroutine) (i : nat)
    (x : goroutine) :
  Forall P l -> P x -> Forall P (replace i x l).
Proof.
  intros Hl Hx. revert i; induction Hl as [|y l Hy Hl IH]; intros [|i]; simpl;
    constructor; auto.
Qed.

Lemma total_zero (f : goroutine -> nat) (l : list goroutine) (i : nat) (r : goroutine) :
  total f l = 0%nat -> nth_error l i = Some r -> f r = 0%nat.
Proof.
  revert i; induction l as [|y l IH]; intros [|i] H0 H; simpl in H; try discriminate;
    unfold total in *; simpl in H0.
  - inversion H; subst. lia.
  - apply (IH i); [lia | assumption].
Qed.

Lemma replace_nil (l : list goroutine) (i : nat) (x : goroutine) :
  replace i x l = [] -> l = [].
Proof. destruct l, i; simpl; congruence. Qed.

(** Case analysis of one step: every way [step w a] can be [Some (ev, w')]. *)
Ltac step_cases H :=
  repeat match type of H with
    | None = Some _ => discriminate H
    | context [match ?x with _ => _ end] => destruct x eqn:?; simpl in H
    | context [if ?x then _ else _] => destruct x eqn:?; simpl in H
    | Some _ = Some _ => inversion H; subst; clear H
    end.

Ltac open_world w :=
  let g := fresh "g" in
  destruct w as [g ? ? ? ?]; destruct g as [? ? ? ? ? ?]; simpl in *.

Ltac open_step H :=
  unfold step, Go, TryGo, SetLimit, Wait, listenToErrors, body, done, send,
    startListening, spawn, goto in H;
  simpl in H; step_cases H;
  unfold with_grp, with_routines, with_listener, with_caller, with_crashed,
    set_wg, set_semaphore, close_errorChan, close_finishedChan in *;
  simpl in *.

(** ** What every reachable world satisfies *)

Lemma total_single (f : goroutine -> nat) (x : goroutine) : total f [x] = f x.
Proof. unfold total; simpl; lia. Qed.

Lemma total_ge (f : goroutine -> nat) (l : list goroutine) (i : nat) (r : goroutine) :
  nth_error l i = Some r -> (f r <= total f l)%nat.
Proof.
  revert i; induction l as [|y l IH]; intros [|i] H; simpl in H; try discriminate;
    unfold total in *; simpl.
  - inversion H; subst. lia.
  - apply IH in H. lia.
Qed.

Lemma sound_closed (b : bool) (r : goroutine) : sound b r -> sound true r.
Proof. unfold sound; destruct (pc r); tauto. Qed.

Ltac replace_facts :=
  match goal with
  | Hn : nth_error ?l ?i = Some ?r |- context [replace ?i ?x ?l] =>
      pose proof (total_replace alive l i x Hn);
      pose proof (total_replace holds l i x Hn);
      pose proof (@replace_nil l i x);
      pose proof (total_ge alive l i Hn);
      pose proof (total_ge holds l i Hn)
  | Hn : nth_error ?l ?i = Some ?r |- _ =>
      pose proof (total_ge alive l i Hn);
      pose proof (total_ge holds l i Hn)
  | _ => idtac
  end.

Ltac name_routine :=
  try match goal with
    | g : goroutine |- _ => destruct g as [? ?]; simpl in *; subst
    end.

Ltac break :=
  repeat match goal with
    | H : exists _, _ |- _ => destruct H
    | H : _ /\ _ |- _ => destruct H
    | H : _ \/ _ |- _ => destruct H
    end.

Ltac to_Z :=
  repeat match goal with
    | H : (_ <? _) = true |- _ => apply Z.ltb_lt in H
    | H : (_ <? _) = false |- _ => apply Z.ltb_ge in H
    | H : (_ <=? _) = true |- _ => apply Z.leb_le in H
    | H : (_ <=? _) = false |- _ => apply Z.leb_gt in H
    | H : (_ =? _) = true |- _ => apply Z.eqb_eq in H
    | H : (_ =? _) = false |- _ => apply Z.eqb_neq in H
    | H : negb _ = true |- _ => apply negb_true_iff in H
    | H : negb _ = false |- _ => apply negb_false_iff in H
    end.

Ltac finish :=
  simpl in *; to_Z;
  try match goal with
    | |- Forall _ (_ ++ _) => apply Forall_app; split; [|repeat constructor; simpl; auto]
    | |- Forall _ (replace _ _ _) => apply Forall_replace; [|simpl; auto]
    end;
  try match goal with
    | H : Forall (sound _) ?l |- Forall (sound true) ?l =>
        eapply Forall_impl; [apply sound_closed | exact H]
    end;
  try assumption;
  try match goal with
    | H : nth_error ?l ?i = Some _ |- _ = [] <-> _ =>
        split; intros ?; [tauto | exfalso; destruct i; intuition (subst; discriminate)]
    | |- ?l ++ [_] = [] <-> _ =>
        split; intros ?; [destruct l; discriminate | discriminate]
    end;
  try match goal with
    | |- match ?s with Some _ => _ | None => _ end => destruct s as [[? ?]|]
    end;
  intuition idtac; break; subst; try congruence; try lia; eauto.

Lemma consistent_step (w : world) (a : action) (ev : event) (w' : world) :
  consistent w -> step w a = Some (ev, w') -> consistent w'.
Proof.
  intros [] H. open_world w. open_step H.
  all: name_routine.
  all: replace_facts.
  all: constructor; simpl.
  all: rewrite ?total_app, ?total_single in *; simpl in *.
  all: try (intuition congruence).
  all: try lia.
  all: finish.
Qed.

Lemma consistent_New : consistent New.
Proof. constructor; simpl; try tauto; try discriminate; auto; intuition discriminate. Qed.

Lemma reaches_consistent (evs : list event) (w : world) :
  reaches evs w -> consistent w.
Proof.
  revert evs w. apply reaches_ind; [exact consistent_New|].
  intros evs w a ev w' _ Hc Hstep. eapply consistent_step; eassumption.
Qed.

(** Every error handed to the listener is the failure of the task of the
    goroutine that sends it. *)
Lemma Sent_failure (w : world) (a : action) (j : nat) (e : error) (w' : world) :
  consistent w -> step w a = Some (Sent j e, w') ->
  a = ARoutine j /\
  exists r, nth_error (routines w) j = Some r /\ failure (job r) = Some e /\
            listener w' = LRange (accumulated (listener w) ++ [e]).
Proof.
  intros Hc H. pose proof (pcs Hc) as Hpcs.
  open_world w. open_step H; name_routine.
  all: split; [reflexivity|]; eexists; split; [eassumption|].
  all: match goal with
       | Hn : nth_error _ _ = Some _ |- _ =>
           apply nth_error_In in Hn;
           pose proof (proj1 (Forall_forall _ _) Hpcs _ Hn) as Hs
       end; simpl in Hs; unfold failure; simpl.
  - now rewrite Hs.
  - destruct Hs as [Hs|Hs]; [now rewrite Hs | discriminate].
Qed.

(** ** What the history tells about the world *)

Lemma total_le (f h : goroutine -> nat) (l : list goroutine) :
  (forall r, (f r <= h r)%nat) -> (total f l <= total h l)%nat.
Proof.
  intros Hfh. induction l as [|x l IH]; unfold total in *; simpl; [lia|].
  specialize (Hfh x). lia.
Qed.

Lemma owes_le_alive (r : goroutine) : (owes r <= alive r)%nat.
Proof. destruct r as [j []]; simpl; try lia; destruct (fails j); lia. Qed.

Lemma failing_single (f : task) : failing [f] = if fails f then 1%nat else 0%nat.
Proof. unfold failing; simpl. now destruct (fails f). Qed.

Ltac owes_facts :=
  match goal with
  | Hn : nth_error ?l ?i = Some ?r |- context [replace ?i ?x ?l] =>
      pose proof (total_replace owes l i x Hn);
      pose proof (map_job_replace l i (pc x) Hn)
  | _ => idtac
  end.

Lemma agrees_step (evs : list event) (w : world) (a : action) (ev : event) (w' : world) :
  consistent w -> agrees evs w -> step w a = Some (ev, w') -> agrees (evs ++ [ev]) w'.
Proof.
  intros Hc [] H.
  pose proof (quiet Hc) as Hq. pose proof (total_le owes alive (routines w) owes_le_alive).
  pose proof (open_chan Hc) as Ho. pose proof (idle_iff Hc) as Hi. pose proof (once_fired Hc) as Hf.
  clear Hc.
  open_world w. open_step H.
  all: name_routine.
  all: owes_facts.
  all: constructor; rewrite ?submitted_app, ?reports_app, ?failing_app, ?length_app; simpl.
  all: rewrite ?total_app, ?total_single, ?map_app, ?app_nil_r, ?Nat.add_0_r,
         ?failing_single in *; simpl in *.
  all: try (unfold fails in *; simpl in * ).
  all: repeat match goal with H : fnc _ = _ |- _ => rewrite H in * end.
  all: try (intuition congruence).
  all: try lia.
  all: try (finish; fail).
  all: try match goal with
         | |- context [fnc ?f] => destruct (fnc f) as [[?|]|?]; simpl; intuition lia
         end.
  all: destruct Hi as [_ Hi]; rewrite Hi in * by congruence; simpl in *; congruence.
Qed.

Lemma agrees_New : agrees [] New.
Proof. constructor; simpl; auto; discriminate. Qed.

Lemma reaches_agrees (evs : list event) (w : world) :
  reaches evs w -> agrees evs w.
Proof.
  revert evs w. apply reaches_ind; [exact agrees_New|].
  intros evs w a ev w' Hr Ha Hstep.
  eapply agrees_step; eauto using reaches_consistent.
Qed.

(** Has no task been submitted? *)
Lemma nothing_submitted (evs : list event) (w : world) :
  reaches evs w ->
  (submitted evs = [] <-> listeningStarted (grp w) = false).
Proof.
  intros Hr. pose proof (reaches_consistent Hr) as Hc.
  pose proof (reaches_agrees Hr) as Ha.
  rewrite <- (none_iff Hc), <- (jobs_submitted Ha).
  destruct (routines w); simpl; split; congruence.
Qed.

(** Before any submission the world is as [New] made it, but for the
    semaphore. *)
Lemma fresh_world (evs : list event) (w : world) :
  reaches evs w -> submitted evs = [] ->
  w = mkWorld (mkSyncGroup 0 (semaphore (grp w)) false false false false)
              [] LIdle None false.
Proof.
  intros Hr Hs. pose proof (reaches_consistent Hr) as Hc.
  apply (nothing_submitted Hr) in Hs.
  destruct Hc. destruct w as [g rs l c cr]; destruct g; simpl in *. subst.
  pose proof (proj2 none_iff0 eq_refl). pose proof (proj2 idle_iff0 eq_refl).
  specialize (unstarted0 eq_refl). subst.
  destruct (open_chan0 eq_refl) as [-> _].
  destruct c as [p|]; [now discriminate in_wait0|].
  destruct finishedChan0; [destruct (closed_fin0 eq_refl); discriminate|].
  reflexivity.
Qed.

(** ** The admission gate *)

Lemma reaches_gateTaken : reaches gateTakenHistory gateTaken.
Proof. exists gateTakenSchedule. reflexivity. Qed.

(** C7. When [TryGo] finds the semaphore full it returns false and the world
    is the one it was called in: no goroutine is spawned, [wg] is not
    incremented, no slot is taken and the listener is not started. *)
Theorem TryGo_full_leaves_world (w : world) (f : task) :
  full (grp w) = true ->
  TryGo f w = (Ret (CallTryGo f) (RBool false), w) /\
  (caller w = None -> crashed w = false ->
   step w (ACall (CallTryGo f)) = Some (Ret (CallTryGo f) (RBool false), w)).
Proof.
  unfold full. intros Hfull.
  assert (H : TryGo f w = (Ret (CallTryGo f) (RBool false), w)).
  { unfold TryGo. destruct (semaphore (grp w)) as [[capacity tokens]|]; [|discriminate].
    apply Z.leb_le in Hfull.
    replace (tokens <? capacity) with false by (symmetry; apply Z.ltb_ge; lia).
    reflexivity. }
  split; [exact H|]. intros Hc Hcr. unfold step. now rewrite Hcr, Hc, H.
Qed.

Lemma TryGo_full_leaves_world_witness :
  full (grp gateTaken) = true /\
  TryGo returningBoom gateTaken = (Ret (CallTryGo returningBoom) (RBool false), gateTaken).
Proof.
  split; [reflexivity|].
  apply (TryGo_full_leaves_world gateTaken returningBoom). reflexivity.
Defined.

(** C8. [Wait] on a group no task was ever submitted to returns nil in its
    first step, and the listener is still not started afterwards. *)
Theorem Wait_without_submission (evs : list event) (w : world) :
  reaches evs w -> submitted evs = [] ->
  step w (ACall CallWait) = Some (Ret CallWait (RError None), w) /\
  listener w = LIdle /\ listeningRoutineStarter (grp w) = false.
Proof.
  intros Hr Hs. rewrite (fresh_world Hr Hs). simpl. repeat split.
Qed.

Lemma Wait_without_submission_witness :
  step (snd (SetLimit 2 New)) (ACall CallWait)
  = Some (Ret CallWait (RError None), snd (SetLimit 2 New)).
Proof.
  apply (@Wait_without_submission [Ret (CallSetLimit 2) RUnit] (snd (SetLimit 2 New))).
  - exists [ACall (CallSetLimit 2)]. reflexivity.
  - reflexivity.
Defined.

(** C10. [Wait] on a group no task was ever submitted to changes nothing:
    its step ends in the world it started in, so whatever schedule follows
    runs as it would have without that call. *)
Theorem Wait_without_submission_changes_nothing (evs : list event) (w : world) :
  reaches evs w -> submitted evs = [] ->
  (forall ev w', step w (ACall CallWait) = Some (ev, w') ->
                 ev = Ret CallWait (RError None) /\ w' = w) /\
  (forall rest,
      run w (ACall CallWait :: rest)
      = match run w rest with
        | Some (evs', w') => Some (Ret CallWait (RError None) :: evs', w')
        | None => None
        end).
Proof.
  intros Hr Hs.
  assert (H : step w (ACall CallWait) = Some (Ret CallWait (RError None), w)).
  { rewrite (fresh_world Hr Hs). reflexivity. }
  split.
  - intros ev w' Hstep. rewrite H in Hstep. now inversion Hstep.
  - intros rest. simpl. rewrite H. reflexivity.
Qed.

Lemma Wait_without_submission_changes_nothing_witness :
  run New [ACall CallWait; ACall (CallSetLimit 1); ACall (CallTryGo succeeding)]
  = match run New [ACall (CallSetLimit 1); ACall (CallTryGo succeeding)] with
    | Some (evs', w') => Some (Ret CallWait (RError None) :: evs', w')
    | None => None
    end.
Proof.
  apply (proj2 (@Wait_without_submission_changes_nothing [] New reaches_New eq_refl)).
Defined.

(** C4. [SetLimit] panics exactly when a task has been submitted before (by
    [Go], or by a [TryGo] that returned true), and then changes nothing;
    before any submission it returns, a limit [<= 0] leaving a nil semaphore
    and a positive one an empty semaphore of that capacity. *)
Theorem SetLimit_panics_iff_submitted (evs : list event) (w : world) (limit : Z)
    (ev : event) (w' : world) :
  reaches evs w ->
  step w (ACall (CallSetLimit limit)) = Some (ev, w') ->
  ((exists msg, ev = Ret (CallSetLimit limit) (RPanic msg)) <-> submitted evs <> []) /\
  (submitted evs <> [] -> w' = w) /\
  (submitted evs = [] ->
   ev = Ret (CallSetLimit limit) RUnit /\
   w' = with_grp (set_semaphore (if limit <=? 0 then None else Some (limit, 0)) (grp w)) w).
Proof.
  intros Hr Hstep. pose proof (nothing_submitted Hr) as Hsub.
  unfold step in Hstep.
  destruct (crashed w); [discriminate|]. destruct (caller w); [discriminate|].
  unfold SetLimit in Hstep.
  destruct (listeningStarted (grp w)) eqn:Hstarted.
  - inversion Hstep; subst; clear Hstep.
    assert (Hne : submitted evs <> []) by (intros H; apply Hsub in H; discriminate).
    repeat split; eauto; intros; congruence.
  - assert (He : submitted evs = []) by now apply Hsub.
    destruct (limit <=? 0); inversion Hstep; subst; clear Hstep;
      (repeat split; try congruence; intros [msg Hmsg]; discriminate).
Qed.

Lemma SetLimit_panics_iff_submitted_witness :
  (exists msg, Ret (CallSetLimit 3) (RPanic "cannot set limit after starting goroutines")
               = Ret (CallSetLimit 3) (RPanic msg))
  <-> submitted gateTakenHistory <> [].
Proof.
  apply (@SetLimit_panics_iff_submitted gateTakenHistory gateTaken 3
           (Ret (CallSetLimit 3) (RPanic "cannot set limit after starting goroutines"))
           gateTaken).
  - exists gateTakenSchedule. reflexivity.
  - reflexivity.
Defined.

(** A goroutine spawned by [Go] that has not taken its slot yet moves if and
    only if the semaphore has room (or is nil). *)
Lemma acquire_blocked_iff_full (w : world) (i : nat) (r : goroutine) :
  crashed w = false -> nth_error (routines w) i = Some r -> pc r = GAcquire ->
  (step w (ARoutine i) = None <-> full (grp w) = true).
Proof.
  intros Hcr Hn Hpc. unfold step, body, full. rewrite Hcr, Hn, Hpc.
  destruct (semaphore (grp w)) as [[capacity tokens]|].
  - destruct (Z.ltb_spec tokens capacity), (Z.leb_spec capacity tokens);
      split; intros; try lia; congruence.
  - split; discriminate.
Qed.

(** C5 as the specification has it does not hold: after [SetLimit(1)] and
    one [TryGo] the semaphore is at capacity, and [Go] returns at once, the
    semaphore still at capacity. *)
Lemma Go_returns_with_full_gate :
  reaches gateTakenHistory gateTaken /\
  full (grp gateTaken) = true /\
  step gateTaken (ACall (CallGo returningBoom))
  = Some (Ret (CallGo returningBoom) RUnit,
          mkWorld (mkSyncGroup 2 (Some (1, 1)) false false true true)
                  [mkGoroutine succeeding GCall; mkGoroutine returningBoom GAcquire]
                  (LRange []) None false) /\
  ~ Go_blocks_the_caller.
Proof.
  split; [exact reaches_gateTaken|]. split; [reflexivity|]. split; [reflexivity|].
  intros H.
  specialize (H gateTakenHistory gateTaken returningBoom reaches_gateTaken eq_refl eq_refl).
  discriminate H.
Qed.

(** C5, as the code has it.  [Go] returns at once whatever the state of the
    semaphore, and always with the same result, so no refusal is signalled;
    it leaves the semaphore as it is.  The goroutine it spawns is the one
    that waits: while the semaphore is at capacity it makes no step, and it
    moves on to the task as soon as there is room. *)
Theorem Go_returns_and_goroutine_waits (w : world) (f : task) :
  caller w = None -> crashed w = false ->
  exists w',
    step w (ACall (CallGo f)) = Some (Ret (CallGo f) RUnit, w') /\
    semaphore (grp w') = semaphore (grp w) /\
    nth_error (routines w') (List.length (routines w)) = Some (mkGoroutine f GAcquire) /\
    (step w' (ARoutine (List.length (routines w))) = None <-> full (grp w') = true).
Proof.
  intros Hc Hcr. exists (snd (Go f w)).
  assert (Hn : nth_error (routines (snd (Go f w))) (List.length (routines w))
               = Some (mkGoroutine f GAcquire)).
  { unfold Go, spawn, startListening; simpl.
    destruct (listeningRoutineStarter (grp w)); simpl;
      now rewrite nth_error_app2, Nat.sub_diag by lia. }
  split; [|split; [|split]].
  - unfold step. now rewrite Hcr, Hc.
  - unfold Go, spawn, startListening; simpl.
    now destruct (listeningRoutineStarter (grp w)).
  - exact Hn.
  - eapply acquire_blocked_iff_full; [|exact Hn|reflexivity].
    unfold Go, spawn, startListening; simpl.
    now destruct (listeningRoutineStarter (grp w)).
Qed.

Lemma Go_returns_and_goroutine_waits_witness :
  exists w',
    step gateTaken (ACall (CallGo returningBoom))
    = Some (Ret (CallGo returningBoom) RUnit, w') /\
    semaphore (grp w') = semaphore (grp gateTaken) /\
    nth_error (routines w') 1 = Some (mkGoroutine returningBoom GAcquire) /\
    (step w' (ARoutine 1) = None <-> full (grp w') = true).
Proof.
  apply (@Go_returns_and_goroutine_waits gateTaken returningBoom); reflexivity.
Defined.

(** Proof by invariant over the runs from any world. *)
Lemma run_ind (w0 : world) (P : list action -> list event -> world -> Prop) :
  P [] [] w0 ->
  (forall s evs w a ev w',
      run w0 s = Some (evs, w) -> P s evs w -> step w a = Some (ev, w') ->
      P (s ++ [a]) (evs ++ [ev]) w') ->
  forall s evs w, run w0 s = Some (evs, w) -> P s evs w.
Proof.
  intros H0 Hstep s.
  induction s as [|a s IH] using rev_ind; intros evs w Hs.
  - simpl in Hs. inversion Hs; subst. assumption.
  - rewrite run_app in Hs.
    destruct (run w0 s) as [[evs1 w1]|] eqn:H1; [|discriminate].
    simpl in Hs. destruct (step w1 a) as [[ev w']|] eqn:Ha; [|discriminate].
    inversion Hs; subst. eapply Hstep; eauto.
Qed.

Lemma repeat_snoc (A : Type) (x : A) (n : nat) : repeat x n ++ [x] = repeat x (S n).
Proof. induction n as [|n IH]; simpl; [reflexivity | now rewrite IH]. Qed.

Lemma gated_run (limit : Z) (s : list action) (evs : list event) (w : world) :
  0 < limit ->
  run (snd (SetLimit limit New)) s = Some (evs, w) ->
  forallb onlyTryGo s = true -> existsb freed evs = false ->
  gated limit evs w.
Proof.
  intros Hpos Hrun. revert s evs w Hrun.
  apply (run_ind (snd (SetLimit limit New)) (fun s evs w =>
           forallb onlyTryGo s = true -> existsb freed evs = false -> gated limit evs w)).
  - intros _ _. constructor.
    + exists 0%nat, 0%nat. unfold SetLimit; simpl.
      replace (limit <=? 0) with false by (symmetry; apply Z.leb_gt; lia).
      simpl. repeat split; try lia; congruence.
    + unfold SetLimit; simpl. destruct (limit <=? 0); constructor.
  - intros s evs w a ev w' _ IH Hstep Hs Hevs.
    rewrite forallb_app in Hs. rewrite existsb_app in Hevs.
    apply andb_prop in Hs as [Hs Ha]. apply orb_false_elim in Hevs as [Hevs Hev].
    simpl in Ha, Hev. rewrite andb_true_r in Ha. rewrite orb_false_r in Hev.
    destruct (IH Hs Hevs) as [(t & k & Hsem & Hle & Hres & Hk) Hpcs]. clear IH.
    open_world w. subst.
    destruct a as [[| | |]| | |]; try discriminate; open_step Hstep; name_routine.
    all: try discriminate.
    all: try (exfalso;
              match goal with
              | Hn : nth_error _ _ = Some _ |- _ =>
                  apply nth_error_In in Hn;
                  apply (proj1 (Forall_forall _ _) Hpcs) in Hn; simpl in Hn; congruence
              end).
    all: to_Z.
    all: constructor; simpl;
      [ unfold tryGoResults; rewrite flat_map_app; fold (tryGoResults evs);
        simpl; rewrite ?app_nil_r
      | try assumption;
        try (apply Forall_app; split; [assumption | repeat constructor; discriminate]);
        try (apply Forall_replace; [assumption | discriminate]) ].
    all: try (exists t, k; repeat split; (assumption || lia)).
    + destruct k as [|k]; [|specialize (Hk ltac:(discriminate)); lia].
      exists (S t), 0%nat. rewrite Hres; simpl. rewrite app_nil_r, repeat_snoc.
      repeat split; try lia. f_equal. f_equal. lia.
    + destruct k as [|k]; [|specialize (Hk ltac:(discriminate)); lia].
      exists (S t), 0%nat. rewrite Hres; simpl. rewrite app_nil_r, repeat_snoc.
      repeat split; try lia. f_equal. f_equal. lia.
    + exists t, (S k). rewrite Hres, <- app_assoc, repeat_snoc.
      repeat split; try lia.
Qed.

(** C6. After [SetLimit(L)] on a new group, with [L > 0], when the caller
    does nothing but call [TryGo] and no goroutine has given its slot back,
    and more than [L] calls have been made, the first [L] calls returned true
    and all the later ones false. *)
Theorem TryGo_first_L_succeed (limit : Z) (s : list action) (evs : list event)
    (w : world) :
  0 < limit ->
  run (snd (SetLimit limit New)) s = Some (evs, w) ->
  forallb onlyTryGo s = true -> existsb freed evs = false ->
  (Z.to_nat limit < List.length (tryGoResults evs))%nat ->
  tryGoResults evs
  = repeat true (Z.to_nat limit)
    ++ repeat false (List.length (tryGoResults evs) - Z.to_nat limit).
Proof.
  intros Hpos Hrun Hs Hevs Hmore.
  destruct (gated_run s Hpos Hrun Hs Hevs) as [(t & k & _ & Hle & Hres & Hk) _].
  rewrite Hres in *. rewrite length_app, !repeat_length in *.
  assert (Ht : t = Z.to_nat limit).
  { destruct k as [|k]; [lia|]. specialize (Hk ltac:(discriminate)). lia. }
  subst t. f_equal. f_equal. lia.
Qed.

Lemma TryGo_first_L_succeed_witness :
  tryGoResults fourTryGoEvents = [true; true; false; false].
Proof.
  apply (@TryGo_first_L_succeed 2 fourTryGo fourTryGoEvents fourTryGoWorld);
    try reflexivity.
  vm_compute. lia.
Defined.

(** ** What [Wait] returns *)


(** The ways a call of [Wait] ends with a value: at once, on a group nothing
    was submitted to, or by receiving what the listener accumulated, once all
    the failures of the submitted tasks have been received. *)
Lemma Wait_returns_value (evs : list event) (w : world) (a : action)
    (r : option error) (w' : world) :
  reaches evs w -> step w a = Some (Ret CallWait (RError r), w') ->
  (submitted evs = [] /\ listener w = LIdle /\ r = None /\ w' = w) \/
  (submitted evs <> [] /\ caller w = Some WRecv /\
   listener w = LDeliver (reports evs) /\ r = Wait_result (reports evs) /\
   List.length (reports evs) = failing (submitted evs) /\
   errorChan (grp w') = true /\ caller w' = None).
Proof.
  intros Hr Hstep.
  pose proof (reaches_consistent Hr) as Hc. pose proof (reaches_agrees Hr) as Ha.
  pose proof (nothing_submitted Hr) as Hsub.
  destruct Hc, Ha. open_world w. open_step Hstep; name_routine; to_Z; subst.
  - left. repeat split; tauto.
  - exfalso. destruct (receiving0 eq_refl) as (_ & _ & acc & [Hl|Hl]);
      destruct (closed_fin0 eq_refl) as [acc' Hl']; congruence.
  - right. simpl in *. destruct (receiving0 eq_refl) as (Hclosed & _ & _).
    specialize (all_reported0 eq_refl). subst.
    repeat split; try congruence.
    intros Hnone. apply Hsub in Hnone. specialize (in_wait0 ltac:(discriminate)).
    congruence.
Qed.

(** Whenever [Wait] returns a value: it is nil exactly when the listener's
    accumulated list is empty, which is exactly when none of the submitted
    tasks failed; otherwise it is the aggregate of the accumulated list, which
    is not empty. *)
Lemma Wait_value_nil_or_aggregate (evs : list event) (w : world) (a : action)
    (r : option error) (w' : world) :
  reaches evs w -> step w a = Some (Ret CallWait (RError r), w') ->
  (r = None <-> accumulated (listener w) = []) /\
  (accumulated (listener w) = [] <-> failing (submitted evs) = 0%nat) /\
  (forall agg, r = Some agg ->
               agg = joinError (accumulated (listener w)) /\ Unwrap agg <> []).
Proof.
  intros Hr Hstep.
  destruct (Wait_returns_value a Hr Hstep)
    as [(Hs & Hl & -> & _) | (_ & _ & Hl & -> & Hlen & _)]; rewrite Hl; simpl.
  - rewrite Hs. repeat split; auto; discriminate.
  - rewrite Wait_result_spec, <- Hlen.
    destruct (reports evs) as [|e l]; simpl.
    + repeat split; auto; discriminate.
    + repeat split; try discriminate; inversion H; subst; simpl; congruence.
Qed.


(** ** Panics *)








(** ** A second [Wait] *)

(** Once [errorChan] is closed and the caller is not at its receive, this
    stays so. *)
Lemma closed_stays (w : world) (a : action) (ev : event) (w' : world) :
  consistent w ->
  errorChan (grp w) = true /\ caller w <> Some WRecv ->
  step w a = Some (ev, w') ->
  errorChan (grp w') = true /\ caller w' <> Some WRecv.
Proof.
  intros Hc [Hclosed Hcaller] H.
  pose proof (unstarted Hc) as Hu. clear Hc.
  open_world w. subst. open_step H; name_routine; split; try congruence.
  all: try discriminate.
  all: specialize (Hu eq_refl); discriminate.
Qed.

Lemma drained_closed (evs : list event) (w : world) :
  reaches evs w -> drained evs ->
  errorChan (grp w) = true /\ caller w <> Some WRecv.
Proof.
  revert evs w.
  apply (reaches_ind (fun evs w =>
           drained evs -> errorChan (grp w) = true /\ caller w <> Some WRecv)).
  - intros (evs1 & r & evs2 & H & _). destruct evs1; discriminate.
  - intros evs w a ev w' Hr IH Hstep (evs1 & r & evs2 & Heq & Hsub).
    destruct evs2 as [|x evs2 _] using rev_ind.
    + apply app_inj_tail in Heq as [<- ->].
      destruct (Wait_returns_value a Hr Hstep)
        as [(Hs & _) | (_ & _ & _ & _ & _ & Hclosed & Hcaller)]; [contradiction|].
      split; congruence.
    + rewrite app_comm_cons, app_assoc in Heq. apply app_inj_tail in Heq as [-> ->].
      eapply closed_stays; eauto using reaches_consistent.
      apply IH. now exists evs1, r, evs2.
Qed.

(** With no goroutine left and no crash, a step that submits nothing leaves
    it so. *)
Lemma settled_stays (w : world) (a : action) (ev : event) (w' : world) :
  consistent w ->
  total alive (routines w) = 0%nat /\ crashed w = false ->
  step w a = Some (ev, w') -> submission ev = [] ->
  total alive (routines w') = 0%nat /\ crashed w' = false.
Proof.
  intros Hc [Hz Hcr] H Hev. pose proof (closed_fin Hc) as Hfin. clear Hc.
  open_world w. subst. open_step H; name_routine; try discriminate.
  all: try match goal with
         | Hn : nth_error ?l ?i = Some ?r |- _ =>
             pose proof (total_ge alive l i Hn); simpl in *; lia
         end.
  all: try (split; [assumption | reflexivity]).
  all: destruct (Hfin eq_refl); discriminate.
Qed.

Lemma drained_settled (evs : list event) (w : world) :
  reaches evs w ->
  forall evs1 r evs2,
    evs = evs1 ++ Ret CallWait (RError r) :: evs2 ->
    submitted evs1 <> [] -> submitted evs2 = [] ->
    total alive (routines w) = 0%nat /\ crashed w = false.
Proof.
  revert evs w.
  apply (reaches_ind (fun evs w =>
           forall evs1 r evs2,
             evs = evs1 ++ Ret CallWait (RError r) :: evs2 ->
             submitted evs1 <> [] -> submitted evs2 = [] ->
             total alive (routines w) = 0%nat /\ crashed w = false)).
  - intros evs1 r evs2 H. destruct evs1; discriminate.
  - intros evs w a ev w' Hr IH Hstep evs1 r evs2 Heq Hsub1 Hsub2.
    pose proof (reaches_consistent Hr) as Hc.
    destruct evs2 as [|x evs2 _] using rev_ind.
    + apply app_inj_tail in Heq as [<- ->].
      destruct (Wait_returns_value a Hr Hstep)
        as [(Hs & _) | (_ & Hcaller & _)]; [contradiction|].
      eapply settled_stays; eauto. split.
      * apply (quiet Hc). now right.
      * now destruct (receiving Hc Hcaller) as (_ & Hcr & _).
    + rewrite app_comm_cons, app_assoc in Heq. apply app_inj_tail in Heq as [-> ->].
      rewrite submitted_app in Hsub2. apply app_eq_nil in Hsub2 as [Hsub2 Hev].
      unfold submitted in Hev; simpl in Hev; rewrite app_nil_r in Hev.
      eapply settled_stays; eauto.
Qed.

(** C9, as the specification has it, does not hold: a [Wait] on the new
    group returns nil and closes nothing; after a task has then been
    submitted and has run, the second [Wait] returns nil too. *)
Lemma second_Wait_returns_after_idle_Wait :
  reaches waitGoWaitEvents waitGoWaitWorld /\
  waitGoWaitEvents
  = Ret CallWait (RError None) :: Ret (CallGo succeeding) RUnit
      :: skipn 2 waitGoWaitEvents /\
  submitted waitGoWaitEvents = [succeeding] /\
  step waitGoWaitWorld AListener
  = Some (Ret CallWait (RError None),
          with_caller None (with_listener (LClose []) waitGoWaitWorld)).
Proof.
  split; [exists waitGoWait; reflexivity|]. repeat split.
Qed.

(** C9, as the code has it.  Once a call of [Wait] has returned a value on a
    group tasks had been submitted to before that call, no later call of
    [Wait] returns a value: such a call can only end by the panic of closing
    the closed [errorChan], and it does so, leaving the world as it was, as
    soon as no task is outstanding; none is, and the process has not crashed,
    when nothing was submitted since that first [Wait]. *)
Theorem second_Wait_panics (evs1 : list event) (r : option error)
    (evs2 : list event) (w : world) :
  reaches (evs1 ++ Ret CallWait (RError r) :: evs2) w -> submitted evs1 <> [] ->
  (forall a r' w', step w a = Some (Ret CallWait r', w') ->
                   r' = RPanic "close of closed channel") /\
  (caller w = None -> crashed w = false -> wg (grp w) = 0 ->
   run w [ACall CallWait; AWait; AWait]
   = Some ([Enter; Tau; Ret CallWait (RPanic "close of closed channel")], w)) /\
  (submitted evs2 = [] -> crashed w = false /\ wg (grp w) = 0).
Proof.
  intros Hr Hsub.
  assert (Hd : drained (evs1 ++ Ret CallWait (RError r) :: evs2))
    by (now exists evs1, r, evs2).
  destruct (drained_closed Hr Hd) as [Hclosed Hcaller].
  pose proof (reaches_consistent Hr) as Hc.
  pose proof (unstarted Hc) as Hu. pose proof (counted Hc) as Hwg.
  pose proof (drained_settled Hr evs1 r evs2 eq_refl Hsub) as Hsettled.
  clear Hc Hr Hd.
  open_world w. subst. split; [|split].
  - intros a r' w' H. open_step H; name_routine; try reflexivity; try congruence.
    destruct listeningStarted0; [discriminate|]. specialize (Hu eq_refl). discriminate.
  - intros -> -> Hz. rewrite Hz. destruct listeningStarted0; [reflexivity|].
    specialize (Hu eq_refl). discriminate.
  - intros H. destruct (Hsettled H) as [-> ->]. split; reflexivity.
Qed.

Lemma second_Wait_panics_witness :
  run oneWaitWorld [ACall CallWait; AWait; AWait]
  = Some ([Enter; Tau; Ret CallWait (RPanic "close of closed channel")], oneWaitWorld).
Proof.
  assert (Hr : reaches (firstn 10 oneWaitEvents
                        ++ Ret CallWait (RError (Some (joinError [errBoom])))
                           :: skipn 11 oneWaitEvents) oneWaitWorld)
    by (exists oneWait; reflexivity).
  assert (Hsub : submitted (firstn 10 oneWaitEvents) <> []) by discriminate.
  exact (proj1 (proj2 (second_Wait_panics _ _ _ Hr Hsub)) eq_refl eq_refl eq_refl).
Defined.

(** ** [Wait] does return *)

Lemma total_pos (f : goroutine -> nat) (l : list goroutine) :
  (0 < total f l)%nat -> exists i r, nth_error l i = Some r /\ (0 < f r)%nat.
Proof.
  induction l as [|x l IH]; unfold total in *; simpl; [lia|]. intros H.
  destruct (f x) eqn:Hx.
  - destruct (IH H) as (i & r & Hn & Hr). now exists (S i), r.
  - exists 0%nat, x. split; [reflexivity | lia].
Qed.

(** While [errorChan] is open, a step of a goroutine brings it closer to its
    end and is not a crash. *)
Lemma routine_step_progress (w : world) (i : nat) (ev : event) (w' : world) :
  consistent w -> errorChan (grp w) = false ->
  step w (ARoutine i) = Some (ev, w') ->
  (total remaining (routines w') < total remaining (routines w))%nat /\
  errorChan (grp w') = false /\ caller w' = caller w /\ submission ev = [].
Proof.
  intros Hc Hopen H. pose proof (counted Hc) as Hwg. clear Hc.
  open_world w. subst. open_step H; name_routine.
  all: try discriminate.
  all: try match goal with
         | Hn : nth_error ?l ?i = Some ?r |- context [replace ?i ?x ?l] =>
             pose proof (total_replace remaining l i x Hn);
             pose proof (total_ge remaining l i Hn)
         | Hn : nth_error ?l ?i = Some ?r |- _ =>
             pose proof (total_ge alive l i Hn)
         end; simpl in *; to_Z.
  all: repeat split; try lia.
Qed.

(** While [errorChan] is open, some goroutine can move unless all are over:
    nobody waits for a slot for ever. *)
Lemma some_routine_moves (w : world) :
  consistent w -> errorChan (grp w) = false ->
  (0 < total alive (routines w))%nat ->
  exists i ev w', step w (ARoutine i) = Some (ev, w').
Proof.
  intros Hc Hopen Halive.
  destruct (open_chan Hc Hopen) as [Hcr Hl].
  assert (Hrange : exists acc, listener w = LRange acc).
  { destruct Hl as [Hl|Hl]; [|exact Hl]. exfalso.
    apply (idle_iff Hc) in Hl. apply (none_iff Hc) in Hl. rewrite Hl in Halive.
    unfold total in Halive; simpl in Halive. lia. }
  destruct Hrange as [acc Hacc].
  pose proof (counted Hc) as Hwg. pose proof (slots Hc) as Hsem.
  assert (Hready : forall i r, nth_error (routines w) i = Some r -> (0 < ready r)%nat ->
                               exists ev w', step w (ARoutine i) = Some (ev, w')).
  { intros i r Hn Hr. unfold step, body, done, send. rewrite Hcr, Hn, Hopen, Hacc.
    pose proof (total_ge alive _ _ Hn) as Ha. pose proof (total_ge holds _ _ Hn) as Hh.
    destruct r as [jb p]; destruct p; simpl in *; try lia; eauto.
    - destruct (fnc jb) as [[e|]|msg]; eauto.
    - destruct (semaphore (grp w)) as [[capacity tokens]|]; eauto.
      replace (0 <? tokens) with true by (symmetry; apply Z.ltb_lt; lia). eauto.
    - replace (wg (grp w) - 1 <? 0) with false by (symmetry; apply Z.ltb_ge; lia).
      eauto. }
  destruct (Nat.eq_dec (total ready (routines w)) 0) as [Hnone|Hsome].
  - destruct (total_pos alive _ Halive) as (i & r & Hn & Hr).
    pose proof (total_zero ready _ _ Hnone Hn) as Hr0.
    assert (Hholds : total holds (routines w) = 0%nat).
    { assert (H : (total holds (routines w) <= total ready (routines w))%nat).
      { apply total_le. intros [jb p]; destruct p; simpl; lia. }
      lia. }
    exists i. unfold step, body. rewrite Hcr, Hn.
    destruct r as [jb p]; destruct p; simpl in *; try lia.
    destruct (semaphore (grp w)) as [[capacity tokens]|]; eauto.
    replace (tokens <? capacity) with true by (symmetry; apply Z.ltb_lt; lia). eauto.
  - destruct (total_pos ready (routines w)) as (i & r & Hn & Hr); [lia|].
    exists i. eauto.
Qed.

Lemma alive_le_remaining (r : goroutine) : (alive r <= remaining r)%nat.
Proof. destruct r as [jb p]; destruct p; simpl; lia. Qed.

(** While [errorChan] is open the goroutines can all be run to their end;
    the caller stays where it is. *)
Lemma routines_can_finish (n : nat) (evs : list event) (w : world) :
  reaches evs w -> errorChan (grp w) = false ->
  (total remaining (routines w) <= n)%nat ->
  exists s evs' w',
    run w s = Some (evs', w') /\
    total alive (routines w') = 0%nat /\
    errorChan (grp w') = false /\ caller w' = caller w /\ submitted evs' = [].
Proof.
  revert evs w. induction n as [|n IH]; intros evs w Hr Hopen Hn.
  - exists [], [], w. repeat split; auto.
    pose proof (total_le alive remaining (routines w) alive_le_remaining). lia.
  - destruct (Nat.eq_dec (total alive (routines w)) 0) as [Hz|Hnz].
    + exists [], [], w. repeat split; auto.
    + pose proof (reaches_consistent Hr) as Hc.
      destruct (some_routine_moves Hc Hopen) as (i & ev & w1 & Hstep); [lia|].
      destruct (routine_step_progress i Hc Hopen Hstep) as (Hlt & Hopen1 & Hcaller & Hev).
      destruct (IH (evs ++ [ev]) w1 (reaches_step _ Hr Hstep) Hopen1)
        as (s & evs' & w' & Hrun & Halive & Hopen' & Hcaller' & Hsub); [lia|].
      exists (ARoutine i :: s), (ev :: evs'), w'. simpl. rewrite Hstep, Hrun.
      repeat split; auto; try congruence.
      unfold submitted in *; simpl. rewrite Hsub, app_nil_r. exact Hev.
Qed.

(** With no goroutine left and [errorChan] open, [Wait] goes through: the
    caller closes the channel, the listener leaves its loop and hands over
    its list. *)
Lemma Wait_goes_through (evs : list event) (w : world) :
  reaches evs w -> errorChan (grp w) = false -> submitted evs <> [] ->
  total alive (routines w) = 0%nat ->
  exists s evs' w',
    run w s
    = Some (evs' ++ [Ret CallWait (RError (Wait_result (accumulated (listener w))))], w')
    /\ submitted evs' = [].
Proof.
  intros Hr Hopen Hsub Hz. pose proof (reaches_consistent Hr) as Hc.
  assert (Hstarted : listeningStarted (grp w) = true).
  { destruct (listeningStarted (grp w)) eqn:H; [reflexivity|].
    apply (nothing_submitted Hr) in H. contradiction. }
  destruct (open_chan Hc Hopen) as [Hcr [Hl|[acc Hl]]].
  { apply (idle_iff Hc) in Hl. congruence. }
  pose proof (counted Hc) as Hwg. rewrite Hz in Hwg.
  pose proof (receiving Hc) as Hrecv. pose proof (closed_fin Hc) as Hfin.
  clear Hc Hr.
  assert (Hfinished : finishedChan (grp w) = false).
  { destruct (finishedChan (grp w)); [|reflexivity].
    destruct (Hfin eq_refl) as [acc' H]. congruence. }
  open_world w. subst. destruct caller0 as [[| |]|].
  - exists [AWait; AWait; AListener; AListener], [Tau; Tau; Tau]. eexists.
    split; reflexivity.
  - exists [AWait; AListener; AListener], [Tau; Tau]. eexists. split; reflexivity.
  - destruct (Hrecv eq_refl) as [H _]. discriminate.
  - exists [ACall CallWait; AWait; AWait; AListener; AListener], [Enter; Tau; Tau; Tau].
    eexists. split; reflexivity.
Qed.

(** X12. From every world reached before [errorChan] is closed, once a task has
    been submitted, some schedule makes [Wait] return a value: the remaining
    goroutines run to their end, none being stuck at the semaphore for ever,
    and [Wait] goes through. *)
Theorem Wait_can_return (evs : list event) (w : world) :
  reaches evs w -> errorChan (grp w) = false -> submitted evs <> [] ->
  exists s evs' r w',
    run w s = Some (evs' ++ [Ret CallWait (RError r)], w') /\
    submitted evs' = [].
Proof.
  intros Hr Hopen Hsub.
  destruct (routines_can_finish Hr Hopen (Nat.le_refl _))
    as (s1 & evs1 & w1 & Hrun1 & Hz & Hopen1 & _ & Hsub1).
  pose proof (reaches_run _ Hr Hrun1) as Hr1.
  destruct (@Wait_goes_through (evs ++ evs1) w1 Hr1 Hopen1)
    as (s2 & evs2 & w2 & Hrun2 & Hsub2);
    [rewrite submitted_app, Hsub1, app_nil_r; exact Hsub | exact Hz |].
  exists (s1 ++ s2), (evs1 ++ evs2), (Wait_result (accumulated (listener w1))), w2.
  rewrite run_app, Hrun1, Hrun2, app_assoc. split; [reflexivity|].
  now rewrite submitted_app, Hsub1, Hsub2.
Qed.

(** The last step of a run. *)
Lemma run_snoc_inv (w : world) (s : list action) (evs : list event) (ev : event)
    (w' : world) :
  run w s = Some (evs ++ [ev], w') ->
  exists s0 a w0,
    s = s0 ++ [a] /\ run w s0 = Some (evs, w0) /\ step w0 a = Some (ev, w').
Proof.
  destruct s as [|a s _] using rev_ind; intros H.
  - simpl in H. inversion H. destruct evs; discriminate.
  - rewrite run_app in H.
    destruct (run w s) as [[evs1 w1]|] eqn:Hrun; [|discriminate]. simpl in H.
    destruct (step w1 a) as [[ev1 w2]|] eqn:Hstep; [|discriminate].
    inversion H as [[Hevs Hw]]. apply app_inj_tail in Hevs as [-> ->].
    exists s, a, w1. subst. auto.
Qed.

(** From every world reached before [errorChan] is closed, some schedule
    without a new submission leads to a step in which [Wait] returns a
    value. *)
Lemma Wait_reaches_return (evs : list event) (w : world) :
  reaches evs w -> errorChan (grp w) = false ->
  exists s evs' w0 a r w',
    run w s = Some (evs', w0) /\ submitted evs' = [] /\
    step w0 a = Some (Ret CallWait (RError r), w').
Proof.
  intros Hr Hopen.
  destruct (submitted evs) as [|f fs] eqn:Hsub.
  - exists [], [], w, (ACall CallWait), None, w.
    split; [reflexivity|]. split; [reflexivity|].
    rewrite (fresh_world Hr Hsub). reflexivity.
  - destruct (routines_can_finish Hr Hopen (Nat.le_refl _))
      as (s1 & evs1 & w1 & Hrun1 & Hz & Hopen1 & _ & Hsub1).
    pose proof (reaches_run _ Hr Hrun1) as Hr1.
    destruct (@Wait_goes_through (evs ++ evs1) w1 Hr1 Hopen1)
      as (s2 & evs2 & w2 & Hrun2 & Hsub2);
      [rewrite submitted_app, Hsub; discriminate | exact Hz |].
    destruct (run_snoc_inv _ _ _ _ Hrun2) as (s0 & a & w0 & -> & Hrun0 & Hstep).
    exists (s1 ++ s0), (evs1 ++ evs2), w0, a,
      (Wait_result (accumulated (listener w1))), w2.
    rewrite run_app, Hrun1, Hrun0. split; [reflexivity|].
    split; [now rewrite submitted_app, Hsub1, Hsub2 | exact Hstep].
Qed.

(** C1. Whenever [Wait] returns a value, it is nil exactly when the
    listener's accumulated list is empty, which is exactly when none of the
    submitted tasks failed; otherwise it is the aggregate of the accumulated
    list, which is not empty.  And [Wait] does return: from every world
    reached before [errorChan] is closed, some schedule without a new
    submission ends in a step in which [Wait] returns a value, nil exactly
    when none of the submitted tasks failed, and a non-empty aggregate
    otherwise. *)
Theorem Wait_nil_iff_nothing_accumulated (evs : list event) (w : world) :
  reaches evs w ->
  (forall a r w',
      step w a = Some (Ret CallWait (RError r), w') ->
      (r = None <-> accumulated (listener w) = []) /\
      (accumulated (listener w) = [] <-> failing (submitted evs) = 0%nat) /\
      (forall agg, r = Some agg ->
                   agg = joinError (accumulated (listener w)) /\ Unwrap agg <> [])) /\
  (errorChan (grp w) = false ->
   exists s evs' w0 a r w',
     run w s = Some (evs', w0) /\ submitted evs' = [] /\
     step w0 a = Some (Ret CallWait (RError r), w') /\
     (r = None <-> accumulated (listener w0) = []) /\
     (r = None <-> failing (submitted evs) = 0%nat) /\
     (forall agg, r = Some agg ->
                  agg = joinError (accumulated (listener w0)) /\ Unwrap agg <> [])).
Proof.
  intros Hr. split.
  - intros a r w' Hstep. exact (Wait_value_nil_or_aggregate a Hr Hstep).
  - intros Hopen.
    destruct (Wait_reaches_return Hr Hopen)
      as (s & evs' & w0 & a & r & w' & Hrun & Hsub & Hstep).
    pose proof (reaches_run _ Hr Hrun) as Hr0.
    destruct (Wait_value_nil_or_aggregate a Hr0 Hstep) as (Hnil & Hacc & Hagg).
    rewrite submitted_app, Hsub, app_nil_r in Hacc.
    exists s, evs', w0, a, r, w'.
    split; [exact Hrun|]. split; [exact Hsub|]. split; [exact Hstep|].
    split; [exact Hnil|]. split; [|exact Hagg].
    rewrite Hnil. exact Hacc.
Qed.

Lemma Wait_nil_iff_nothing_accumulated_witness :
  exists s evs' w0 a r w',
    run panicWorld s = Some (evs', w0) /\ submitted evs' = [] /\
    step w0 a = Some (Ret CallWait (RError r), w') /\
    (r = None <-> accumulated (listener w0) = []) /\
    (r = None <-> failing (submitted panicEvents) = 0%nat) /\
    (forall agg, r = Some agg ->
                 agg = joinError (accumulated (listener w0)) /\ Unwrap agg <> []).
Proof.
  assert (Hr : reaches panicEvents panicWorld) by (exists panicSchedule; reflexivity).
  exact (proj2 (Wait_nil_iff_nothing_accumulated Hr) eq_refl).
Defined.




(** ** Every failure, once *)

Lemma due_replace (l : list goroutine) (i : nat) (r x : goroutine) :
  nth_error l i = Some r ->
  Permutation (due r ++ flat_map due (replace i x l)) (due x ++ flat_map due l).
Proof.
  revert i; induction l as [|y l IH]; intros [|i] H; simpl in H; try discriminate.
  - inversion H; subst. simpl. apply Permutation_app_swap_app.
  - simpl. apply IH in H.
    rewrite (Permutation_app_swap_app (due r)), (Permutation_app_swap_app (due x)).
    now apply Permutation_app_head.
Qed.

Lemma due_exited (l : list goroutine) :
  total alive l = 0%nat -> flat_map due l = [].
Proof.
  induction l as [|[jb p] l IH]; unfold total in *; simpl; [reflexivity|].
  destruct p; simpl; try lia. intros H. now apply IH.
Qed.

(** A step of a goroutine: its failure has been sent or is still due. *)
Lemma step_accounting (sent dr dx A A' R T : list error) :
  dr = sent ++ dx ->
  Permutation (dr ++ A') (dx ++ A) ->
  Permutation (R ++ A) T ->
  Permutation ((R ++ sent) ++ A') T.
Proof.
  intros -> H HT. rewrite <- HT, <- app_assoc. apply Permutation_app_head.
  rewrite <- app_assoc in H. rewrite (Permutation_app_swap_app sent dx A') in H.
  now apply Permutation_app_inv_l in H.
Qed.

Lemma failures_app (fs1 fs2 : list task) :
  failures (fs1 ++ fs2) = failures fs1 ++ failures fs2.
Proof. apply flat_map_app. Qed.

Lemma accounted_step (evs : list event) (w : world) (a : action) (ev : event)
    (w' : world) :
  consistent w -> accounted evs w -> step w a = Some (ev, w') ->
  accounted (evs ++ [ev]) w'.
Proof.
  intros Hc [Hdue Hall] H.
  pose proof (quiet Hc) as Hq. pose proof (pcs Hc) as Hpcs.
  pose proof (receiving Hc) as Hrecv.
  pose proof (@due_exited (routines w)) as Hex. clear Hc.
  open_world w. open_step H.
  all: name_routine.
  all: try match goal with
         | Hn : nth_error ?l ?i = Some ?r |- _ =>
             pose proof (total_ge alive l i Hn) as Hge; simpl in Hge
         end.
  all: constructor; simpl;
    rewrite ?submitted_app, ?reports_app, ?failures_app, ?flat_map_app; simpl.
  all: try (intros; discriminate).
  all: try (intros; rewrite ?app_nil_r; auto; fail).
  all: try (intros Ho; exfalso; specialize (Hq (or_intror Ho)); lia).
  all: try (intros Ho; rewrite ?app_nil_r, app_assoc;
            apply Permutation_app; [auto | reflexivity]).
  all: try (intros Ho; rewrite (app_nil_r (failures (submitted evs)));
            eapply step_accounting;
            [ | eapply due_replace; eassumption | eauto ];
            simpl; unfold failure;
            repeat match goal with Hf : fnc _ = _ |- _ => rewrite Hf end;
            reflexivity).
  intros _. rewrite !app_nil_r. specialize (Hdue eq_refl).
  rewrite Hex in Hdue by (apply Hq; auto). now rewrite app_nil_r in Hdue.
Qed.

Lemma accounted_New : accounted [] New.
Proof. constructor; simpl; intros; [constructor | discriminate]. Qed.

Lemma reaches_accounted (evs : list event) (w : world) :
  reaches evs w -> accounted evs w.
Proof.
  revert evs w. apply reaches_ind; [exact accounted_New|].
  intros evs w a ev w' Hr Ha Hstep.
  eapply accounted_step; eauto using reaches_consistent.
Qed.

(** ** The gate, the counter and the listener along every run *)

Lemma holds_le_alive (r : goroutine) : (holds r <= alive r)%nat.
Proof. destruct r as [jb p]; destruct p; simpl; lia. Qed.

Lemma total_alive_zero_iff (l : list goroutine) :
  total alive l = 0%nat <-> forallb exited l = true.
Proof.
  induction l as [|[jb p] l IH]; unfold total in *; simpl; [tauto|].
  destruct p; simpl; try (split; [lia | discriminate]). exact IH.
Qed.

(** The capacity of the semaphore is the limit of the last [SetLimit] that
    returned. *)
Lemma capacity_is_limitInForce (evs : list event) (w : world) :
  reaches evs w -> capacityOf (grp w) = limitInForce evs.
Proof.
  revert evs w. apply reaches_ind; [reflexivity|].
  intros evs w a ev w' Hr IH Hstep. unfold limitInForce in *.
  rewrite fold_left_app; simpl. rewrite <- IH. clear IH Hr.
  unfold capacityOf. open_world w. open_step Hstep; name_routine;
    try reflexivity;
    match goal with Hl : (_ <=? _) = _ |- _ => rewrite Hl end; reflexivity.
Qed.

(** X1. With a limit set, the goroutines between the acquisition and the
    release of a slot (their task may be running) are as many as the tokens
    in the semaphore, and never more than its capacity, which is the limit of
    the last [SetLimit] that returned. *)
Theorem never_more_than_limit_in_flight (evs : list event) (w : world)
    (capacity tokens : Z) :
  reaches evs w -> semaphore (grp w) = Some (capacity, tokens) ->
  Z.of_nat (total holds (routines w)) = tokens /\
  0 <= tokens <= capacity /\ limitInForce evs = Some capacity.
Proof.
  intros Hr Hsem. pose proof (slots (reaches_consistent Hr)) as Hs.
  rewrite Hsem in Hs. destruct Hs as (Hpos & Hle & Heq).
  split; [lia|]. split; [lia|].
  rewrite <- (capacity_is_limitInForce Hr). unfold capacityOf. now rewrite Hsem.
Qed.

(** X2. [TryGo] answers false exactly when the semaphore exists and is at
    capacity, which in a run means that as many goroutines as the capacity
    hold a slot; when it answers true one more goroutine exists, about to
    call the task, and [wg] is one more. *)
Theorem TryGo_refuses_exactly_at_capacity (evs : list event) (w : world) (f : task)
    (ev : event) (w' : world) :
  reaches evs w -> step w (ACall (CallTryGo f)) = Some (ev, w') ->
  (ev = Ret (CallTryGo f) (RBool false) <->
   semaphore (grp w) = Some (Z.of_nat (total holds (routines w)),
                             Z.of_nat (total holds (routines w)))) /\
  (ev = Ret (CallTryGo f) (RBool true) ->
   routines w' = routines w ++ [mkGoroutine f GCall] /\
   wg (grp w') = wg (grp w) + 1 /\
   total holds (routines w') = S (total holds (routines w))) /\
  (ev = Ret (CallTryGo f) (RBool false) \/ ev = Ret (CallTryGo f) (RBool true)).
Proof.
  intros Hr Hstep. pose proof (slots (reaches_consistent Hr)) as Hs.
  unfold step in Hstep. destruct (crashed w); [discriminate|].
  destruct (caller w); [discriminate|]. inversion Hstep as [H]. clear Hstep.
  unfold TryGo in H.
  assert (Hspawn : forall w0, routines (spawn f GCall (startListening w0))
                              = routines w0 ++ [mkGoroutine f GCall] /\
                              wg (grp (spawn f GCall (startListening w0)))
                              = wg (grp w0) + 1).
  { intros w0. unfold spawn, startListening.
    destruct (listeningRoutineStarter (grp w0)); simpl; split; reflexivity. }
  destruct (semaphore (grp w)) as [[capacity tokens]|] eqn:Hsem.
  - destruct Hs as (Hpos & Hle & Heq).
    destruct (Z.ltb_spec tokens capacity); inversion H; subst; clear H.
    + split; [split; [discriminate | intros Hx; inversion Hx; lia]|].
      split; [|auto]. intros _.
      destruct (Hspawn (with_grp (set_semaphore (Some (capacity, Z.of_nat (total holds (routines w)) + 1)) (grp w)) w))
        as [-> ->]. simpl.
      rewrite total_app, total_single. simpl. repeat split; lia.
    + split; [split; [intros _; f_equal; f_equal; lia | reflexivity]|].
      split; [discriminate | auto].
  - inversion H; subst; clear H.
    split; [split; discriminate|]. split; [|auto]. intros _.
    destruct (Hspawn w) as [-> ->]. rewrite total_app, total_single. simpl.
    repeat split; lia.
Qed.

(** X3. [wg] counts the goroutines that have not run [wg.Done()] yet: it is
    never negative, never more than the number of submitted tasks, and zero
    exactly when every goroutine is over; there is one goroutine for each
    submitted task, in the order of submission. *)
Theorem wg_counts_unfinished_goroutines (evs : list event) (w : world) :
  reaches evs w ->
  wg (grp w) = Z.of_nat (total alive (routines w)) /\
  0 <= wg (grp w) <= Z.of_nat (List.length (submitted evs)) /\
  (wg (grp w) = 0 <-> forallb exited (routines w) = true) /\
  map job (routines w) = submitted evs.
Proof.
  intros Hr. pose proof (counted (reaches_consistent Hr)) as Hwg.
  pose proof (jobs_submitted (reaches_agrees Hr)) as Hjobs.
  split; [exact Hwg|]. split; [|split; [|exact Hjobs]].
  - rewrite <- Hjobs, length_map, Hwg.
    assert (H : forall l, (total alive l <= List.length l)%nat).
    { induction l as [|[jb p] l IH]; unfold total in *; simpl; [lia|].
      destruct p; simpl; lia. }
    specialize (H (routines w)). lia.
  - rewrite Hwg, <- total_alive_zero_iff. lia.
Qed.

(** X4. When [Wait] returns a value every goroutine is over, [wg] is zero
    and the semaphore, if any, holds no token: all the slots have been given
    back. *)
Theorem Wait_returns_after_every_goroutine (evs : list event) (w : world)
    (a : action) (r : option error) (w' : world) :
  reaches evs w -> step w a = Some (Ret CallWait (RError r), w') ->
  forallb exited (routines w') = true /\
  map job (routines w') = submitted evs /\
  wg (grp w') = 0 /\
  (forall capacity tokens, semaphore (grp w') = Some (capacity, tokens) -> tokens = 0) /\
  crashed w' = false.
Proof.
  intros Hr Hstep. pose proof (reaches_consistent Hr) as Hc.
  pose proof (reaches_step _ Hr Hstep) as Hr'.
  pose proof (reaches_consistent Hr') as Hc'.
  assert (Hz : total alive (routines w) = 0%nat /\ crashed w = false).
  { destruct (Wait_returns_value a Hr Hstep) as [(Hs & _) | (_ & Hcaller & _)].
    - rewrite (fresh_world Hr Hs). split; reflexivity.
    - split; [apply (quiet Hc); now right|].
      now destruct (receiving Hc Hcaller) as (_ & Hcr & _). }
  destruct (settled_stays a Hc Hz Hstep eq_refl) as [Hz' Hcr'].
  split; [now apply total_alive_zero_iff|]. split.
  { rewrite (jobs_submitted (reaches_agrees Hr')), submitted_app. simpl.
    apply app_nil_r. }
  split; [rewrite (counted Hc'), Hz'; reflexivity|]. split; [|exact Hcr'].
  intros capacity tokens Hsem. pose proof (slots Hc') as Hs. rewrite Hsem in Hs.
  pose proof (total_le holds alive (routines w') holds_le_alive). lia.
Qed.

(** X5. The listener exists exactly when a task has been submitted, and a
    later [Go] or [TryGo] does not start it again: it keeps its place and
    the errors it has accumulated. *)
Theorem listener_started_once (evs : list event) (w : world) :
  reaches evs w ->
  (listener w = LIdle <-> submitted evs = []) /\
  (submitted evs <> [] ->
   forall f ev w',
     step w (ACall (CallGo f)) = Some (ev, w') \/
     step w (ACall (CallTryGo f)) = Some (ev, w') ->
     listener w' = listener w).
Proof.
  intros Hr. pose proof (reaches_consistent Hr) as Hc.
  pose proof (nothing_submitted Hr) as Hsub. split.
  - rewrite (idle_iff Hc). symmetry. exact Hsub.
  - intros Hne f ev w' Hstep.
    assert (Hstarted : listeningRoutineStarter (grp w) = true).
    { rewrite (once_fired Hc). destruct (listeningStarted (grp w)); [reflexivity|].
      destruct Hne. now apply Hsub. }
    clear Hc Hr Hsub Hne. open_world w. subst.
    destruct Hstep as [H|H]; open_step H; reflexivity.
Qed.

(** ** The value of [Wait] and each failing task *)

Lemma append_nil_right (s : string) : (s ++ "")%string = s.
Proof. induction s as [|c s IH]; simpl; congruence. Qed.

Lemma append_associative (s t u : string) :
  ((s ++ t) ++ u)%string = (s ++ t ++ u)%string.
Proof. induction s as [|c s IH]; simpl; congruence. Qed.

Lemma occurs_refl (s : string) : occurs s s.
Proof. exists ""%string, ""%string. simpl. now rewrite append_nil_right. Qed.


Lemma occurs_joinLines (s : string) (l : list string) :
  In s l -> occurs s (joinLines l).
Proof.
  induction l as [|x l IH]; intros Hin; [destruct Hin|].
  destruct Hin as [->|Hin].
  - destruct l as [|y l]; [apply occurs_refl|].
    exists ""%string, (newline ++ joinLines (y :: l))%string. reflexivity.
  - destruct l as [|y l]; [destruct Hin|].
    destruct (IH Hin) as (p & q & Heq).
    exists (x ++ newline ++ p)%string, q.
    change (joinLines (x :: y :: l)) with (x ++ newline ++ joinLines (y :: l))%string.
    now rewrite Heq, !append_associative.
Qed.

(** What one of the joined errors matches, the aggregate matches. *)
Lemma Is_joinError_inner (errs : list error) (e target : error) :
  In e errs -> Is e target = true -> Is (joinError errs) target = true.
Proof.
  intros Hin His. rewrite Is_unfold. apply orb_true_iff; right.
  apply existsb_exists. now exists e.
Qed.

(** The errors held by the value of [Wait] are the failures of the submitted
    tasks, in some order. *)
Lemma entries_are_failures (evs : list event) (w : world) (a : action)
    (r : option error) (w' : world) :
  reaches evs w -> step w a = Some (Ret CallWait (RError r), w') ->
  Permutation (entries r) (failures (submitted evs)).
Proof.
  intros Hr Hstep.
  destruct (Wait_returns_value a Hr Hstep)
    as [(Hs & _ & -> & _) | (_ & Hcaller & _ & -> & _)].
  - rewrite Hs. constructor.
  - pose proof (all_received (reaches_accounted Hr) Hcaller) as Hp.
    rewrite Wait_result_spec. destruct (reports evs); exact Hp.
Qed.

(** The value of [Wait] holds the failure of each failing task. *)
Lemma failing_task_shown (evs : list event) (w : world) (a : action)
    (r : option error) (w' : world) (f : task) (e : error) :
  reaches evs w -> step w a = Some (Ret CallWait (RError r), w') ->
  In f (submitted evs) -> failure f = Some e ->
  exists agg,
    r = Some agg /\ In e (Unwrap agg) /\
    (forall target, Is e target = true -> Is agg target = true) /\
    occurs (Error e) (Error agg) /\
    (failing (submitted evs) = 1%nat -> Error agg = Error e).
Proof.
  intros Hr Hstep Hin Hf.
  pose proof (entries_are_failures a Hr Hstep) as Hp.
  assert (He : In e (failures (submitted evs))).
  { unfold failures. apply in_flat_map. exists f. split; [exact Hin|].
    rewrite Hf. now left. }
  apply (Permutation_in _ (Permutation_sym Hp)) in He.
  destruct (Wait_returns_value a Hr Hstep)
    as [(Hs & _) | (_ & _ & _ & -> & Hlen & _)].
  - rewrite Hs in Hin. destruct Hin.
  - rewrite Wait_result_spec in *.
    destruct (reports evs) as [|x l] eqn:Hrep; [destruct He|].
    exists (joinError (x :: l)). simpl in He. repeat split.
    + exact He.
    + intros target Ht. now apply Is_joinError_inner with e.
    + change (Error (joinError (x :: l))) with (joinLines (map Error (x :: l))).
      apply occurs_joinLines. now apply in_map.
    + intros H1. rewrite H1 in Hlen. destruct l; [|discriminate].
      destruct He as [->|[]]. reflexivity.
Qed.

(** X6. When [Wait] returns a value, the errors it holds are the failures of
    the submitted tasks, each failing task counting once, in some order:
    no failure is lost, repeated or made up. *)
Theorem Wait_returns_every_failure_once (evs : list event) (w : world) (a : action)
    (r : option error) (w' : world) :
  reaches evs w -> step w a = Some (Ret CallWait (RError r), w') ->
  Permutation (entries r) (failures (submitted evs)).
Proof. intros Hr Hstep. exact (entries_are_failures a Hr Hstep). Qed.

(** X7. When [Wait] returns a value after a failing task was submitted, the
    value is not nil, it holds and matches the failure of that task and all
    that this failure matches, and its text holds the text of the failure;
    when the task is the only failing one, the two texts are the same. *)
Theorem Wait_shows_each_failing_task (evs : list event) (w : world) (a : action)
    (r : option error) (w' : world) (f : task) (e : error) :
  reaches evs w -> step w a = Some (Ret CallWait (RError r), w') ->
  In f (submitted evs) -> failure f = Some e ->
  exists agg,
    r = Some agg /\ In e (Unwrap agg) /\
    (forall target, Is e target = true -> Is agg target = true) /\
    occurs (Error e) (Error agg) /\
    (failing (submitted evs) = 1%nat -> Error agg = Error e).
Proof. intros Hr Hstep Hin Hf. exact (failing_task_shown a f Hr Hstep Hin Hf). Qed.


(** ** Crashes *)

(** A step that crashes the process is the send in [done] of a goroutine,
    on the closed [errorChan]. *)
Lemma crash_step (w : world) (a : action) (ev : event) (w' : world) :
  consistent w -> step w a = Some (ev, w') -> crashed w' = true ->
  errorChan (grp w') = true /\
  exists j r msg, nth_error (routines w') j = Some r /\ pc r = GRecover msg.
Proof.
  intros Hc H Hcr.
  pose proof (counted Hc) as Hwg. pose proof (closed_fin Hc) as Hfin. clear Hc.
  open_world w. subst. open_step H; name_routine; try discriminate.
  - split; [reflexivity|]. do 3 eexists. split; [eassumption | reflexivity].
  - exfalso.
    match goal with
    | Hn : nth_error ?l ?i = Some _ |- _ => pose proof (total_ge alive l i Hn)
    end.
    simpl in *; to_Z; lia.
  - destruct (Hfin eq_refl); discriminate.
  - destruct (Hfin eq_refl); discriminate.
Qed.

(** X9. No panic escapes a goroutine of the group but that of the send in
    [done] on an [errorChan] that [Wait] has closed: in every world in which
    the process has crashed, [errorChan] is closed and a goroutine stands at
    the send of its recovered panic. *)
Theorem crash_only_by_send_on_closed_errorChan (evs : list event) (w : world) :
  reaches evs w -> crashed w = true ->
  errorChan (grp w) = true /\
  exists j r msg, nth_error (routines w) j = Some r /\ pc r = GRecover msg.
Proof.
  revert evs w.
  apply (reaches_ind (fun _ w =>
           crashed w = true ->
           errorChan (grp w) = true /\
           exists j r msg, nth_error (routines w) j = Some r /\ pc r = GRecover msg)).
  - discriminate.
  - intros evs w a ev w' Hr _ Hstep Hcr.
    exact (crash_step a (reaches_consistent Hr) Hstep Hcr).
Qed.

Lemma crash_only_by_send_on_closed_errorChan_witness :
  errorChan (grp lateFailureWorld) = true /\
  exists j r msg,
    nth_error (routines lateFailureWorld) j = Some r /\ pc r = GRecover msg.
Proof.
  apply (@crash_only_by_send_on_closed_errorChan lateFailureEvents lateFailureWorld).
  - exists lateFailure. reflexivity.
  - reflexivity.
Defined.

Lemma nth_error_last (l : list goroutine) (r : goroutine) :
  nth_error (l ++ [r]) (List.length l) = Some r.
Proof. now rewrite nth_error_app2, Nat.sub_diag by lia. Qed.

Lemma replace_last (l : list goroutine) (r x : goroutine) :
  replace (List.length l) x (l ++ [r]) = l ++ [x].
Proof. induction l as [|y l IH]; simpl; [reflexivity | now rewrite IH]. Qed.

(** One step of the goroutine spawned last. *)
Lemma step_last_routine (g : SyncGroup) (l : list goroutine) (r : goroutine)
    (lis : lpc) (c : option wpc) :
  step (mkWorld g (l ++ [r]) lis c false) (ARoutine (List.length l))
  = body (List.length l) r (mkWorld g (l ++ [r]) lis c false).
Proof. unfold step; simpl. now rewrite nth_error_last. Qed.

Ltac last_step :=
  rewrite step_last_routine;
  unfold body, done, send, goto, with_routines, with_grp, set_semaphore,
    with_crashed;
  simpl; rewrite ?replace_last; simpl.

(** X10. Once [errorChan] is closed, a failing task submitted by [Go]
    crashes the process when its goroutine runs: the send of a returned
    error panics, [done] recovers that panic, and the send in [done] (also
    reached directly by a task that panicked) panics with nobody to recover
    it. *)
Theorem failing_task_after_Wait_crashes (evs : list event) (w : world) (f : task) :
  reaches evs w -> errorChan (grp w) = true ->
  caller w = None -> crashed w = false -> full (grp w) = false ->
  fails f = true ->
  exists n evs' w',
    run w (ACall (CallGo f) :: repeat (ARoutine (List.length (routines w))) n)
    = Some (Ret (CallGo f) RUnit :: evs' ++ [Crash], w') /\
    submitted evs' = [] /\ reports evs' = [] /\ crashed w' = true.
Proof.
  intros Hr Hclosed Hcaller Hcr Hfull Hfails.
  pose proof (reaches_consistent Hr) as Hc.
  assert (Honce : listeningRoutineStarter (grp w) = true).
  { rewrite (once_fired Hc). destruct (listeningStarted (grp w)) eqn:H; [reflexivity|].
    apply (unstarted Hc) in H. congruence. }
  clear Hc Hr. unfold full in Hfull. open_world w. subst.
  unfold fails in Hfails.
  destruct (fnc f) as [[e|]|msg] eqn:Hf; try discriminate.
  - exists 4%nat, [Tau; Tau; Tau]. simpl repeat. unfold run at 1. unfold step at 1. simpl.
    unfold Go, spawn, startListening, with_routines, with_grp, set_wg; simpl.
    destruct semaphore0 as [[capacity tokens]|].
    + assert (Hlt : (tokens <? capacity) = true)
        by (apply Z.ltb_lt; apply Z.leb_gt in Hfull; lia).
      last_step. rewrite Hlt. simpl. rewrite ?replace_last.
      last_step. rewrite Hf. simpl. rewrite ?replace_last.
      last_step. last_step.
      eexists. repeat split.
    + last_step. last_step. rewrite Hf. simpl. rewrite ?replace_last.
      last_step. last_step.
      eexists. repeat split.
  - exists 3%nat, [Tau; Tau]. simpl repeat. unfold run at 1. unfold step at 1. simpl.
    unfold Go, spawn, startListening, with_routines, with_grp, set_wg; simpl.
    destruct semaphore0 as [[capacity tokens]|].
    + assert (Hlt : (tokens <? capacity) = true)
        by (apply Z.ltb_lt; apply Z.leb_gt in Hfull; lia).
      last_step. rewrite Hlt. simpl. rewrite ?replace_last.
      last_step. rewrite Hf. simpl. rewrite ?replace_last.
      last_step.
      eexists. repeat split.
    + last_step. last_step. rewrite Hf. simpl. rewrite ?replace_last.
      last_step.
      eexists. repeat split.
Qed.

Lemma failing_task_after_Wait_crashes_witness :
  exists n evs' w',
    run oneWaitWorld
        (ACall (CallGo returningBoom)
         :: repeat (ARoutine (List.length (routines oneWaitWorld))) n)
    = Some (Ret (CallGo returningBoom) RUnit :: evs' ++ [Crash], w') /\
    submitted evs' = [] /\ reports evs' = [] /\ crashed w' = true.
Proof.
  apply (@failing_task_after_Wait_crashes oneWaitEvents oneWaitWorld returningBoom);
    try reflexivity.
  exists oneWait. reflexivity.
Defined.

(** ** Progress *)

(** X11. As long as [errorChan] is open and some goroutine is not over, some
    goroutine can make a step, which is not a crash and brings it closer to
    its end: the goroutines never block each other for ever at the
    semaphore, and a send never waits for a listener that is gone. *)
Theorem no_deadlock_before_Wait_closes (evs : list event) (w : world) :
  reaches evs w -> errorChan (grp w) = false ->
  forallb exited (routines w) = false ->
  exists i ev w',
    step w (ARoutine i) = Some (ev, w') /\
    crashed w' = false /\
    (total remaining (routines w') < total remaining (routines w))%nat.
Proof.
  intros Hr Hopen Hsome. pose proof (reaches_consistent Hr) as Hc.
  destruct (some_routine_moves Hc Hopen) as (i & ev & w' & Hstep).
  { destruct (total alive (routines w)) eqn:Hz; [|lia].
    apply total_alive_zero_iff in Hz. congruence. }
  exists i, ev, w'. split; [exact Hstep|].
  destruct (routine_step_progress i Hc Hopen Hstep) as (Hlt & Hopen' & _).
  split; [|exact Hlt].
  now destruct (open_chan (reaches_consistent (reaches_step _ Hr Hstep)) Hopen').
Qed.

Lemma no_deadlock_before_Wait_closes_witness :
  exists i ev w',
    step gateTaken (ARoutine i) = Some (ev, w') /\
    crashed w' = false /\
    (total remaining (routines w') < total remaining (routines gateTaken))%nat.
Proof.
  apply (@no_deadlock_before_Wait_closes gateTakenHistory gateTaken); try reflexivity.
  exists gateTakenSchedule. reflexivity.
Defined.

Lemma Wait_can_return_witness :
  exists s evs' r w',
    run gateTaken s = Some (evs' ++ [Ret CallWait (RError r)], w') /\
    submitted evs' = [].
Proof.
  apply (@Wait_can_return gateTakenHistory gateTaken).
  - exists gateTakenSchedule. reflexivity.
  - reflexivity.
  - discriminate.
Defined.

(** X13. What a goroutine hands to the listener is the failure of its own
    task: the very error the task returned, or the error [done] built from
    its panic; the goroutine of a task that returned nil sends nothing. *)
Theorem only_the_failure_of_the_task_is_sent (evs : list event) (w : world)
    (a : action) (j : nat) (e : error) (w' : world) :
  reaches evs w -> step w a = Some (Sent j e, w') ->
  exists r,
    nth_error (routines w) j = Some r /\
    fnc (job r) <> Returns None /\
    (forall err, fnc (job r) = Returns (Some err) -> e = err) /\
    (forall msg, fnc (job r) = Panics msg -> e = recovered msg (stack (job r))) /\
    errorChan (grp w) = false.
Proof.
  intros Hr Hstep.
  destruct (Sent_failure a (reaches_consistent Hr) Hstep) as (_ & r & Hn & Hf & _).
  exists r. split; [exact Hn|]. unfold failure in Hf.
  split; [intros H; rewrite H in Hf; discriminate|].
  split; [intros err H; rewrite H in Hf; congruence|].
  split; [intros msg H; rewrite H in Hf; congruence|].
  clear Hf Hn Hr. open_world w. open_step Hstep; reflexivity.
Qed.

(** ** The text of [GroupError] *)

Lemma GroupError_builder (l : list (option error)) (builder : string) :
  fold_left
    (fun b err =>
       match err with
       | Some x => ((b ++ Error x) ++ ";")%string
       | None => b
       end) l builder
  = (builder ++ GroupError_Error (mkGroupError l))%string.
Proof.
  unfold GroupError_Error; simpl. revert builder.
  induction l as [|[x|] l IH]; intros builder; simpl.
  - now rewrite append_nil_right.
  - rewrite IH, (IH (Error x ++ ";")%string). now rewrite !append_associative.
  - apply IH.
Qed.

Lemma append_eq_empty (s t : string) : (s ++ t)%string = ""%string -> s = ""%string.
Proof. destruct s; [reflexivity | discriminate]. Qed.

Lemma GroupError_Error_entry_by_entry_aux (x : error) (l : list (option error)) :
  GroupError_Error (mkGroupError (Some x :: l))
  = ((Error x ++ ";") ++ GroupError_Error (mkGroupError l))%string /\
  forall l', GroupError_Error (mkGroupError (l' ++ l))
             = (GroupError_Error (mkGroupError l')
                ++ GroupError_Error (mkGroupError l))%string.
Proof.
  split.
  - unfold GroupError_Error at 1; simpl. now rewrite GroupError_builder.
  - intros l'. unfold GroupError_Error at 1; simpl. rewrite fold_left_app.
    rewrite GroupError_builder. f_equal.
Qed.

(** X14. The text of a [GroupError] is built entry by entry: a nil entry
    adds nothing, another one adds its text followed by [";"], also after
    the last one; so the text of two lists of entries put end to end is the
    two texts put end to end. *)
Theorem GroupError_Error_entry_by_entry (errs1 errs2 : list (option error)) :
  GroupError_Error (mkGroupError (errs1 ++ errs2))
  = (GroupError_Error (mkGroupError errs1)
     ++ GroupError_Error (mkGroupError errs2))%string /\
  (forall x, GroupError_Error (mkGroupError (Some x :: errs2))
             = (Error x ++ ";" ++ GroupError_Error (mkGroupError errs2))%string) /\
  GroupError_Error (mkGroupError (None :: errs2))
  = GroupError_Error (mkGroupError errs2).
Proof.
  split; [|split].
  - unfold GroupError_Error at 1; simpl. rewrite fold_left_app.
    rewrite GroupError_builder. f_equal.
  - intros x. unfold GroupError_Error at 1; simpl.
    rewrite GroupError_builder. now rewrite append_associative.
  - reflexivity.
Qed.

(** X15. The text of a [GroupError] is empty exactly when all its entries are
    nil (an error whose own text is empty still gives [";"]), and it holds
    the text of every entry that is not nil, followed by [";"]. *)
Theorem GroupError_Error_empty_iff (e : GroupError) :
  (GroupError_Error e = ""%string <-> Forall (fun err => err = None) (Errs e)) /\
  (forall x, In (Some x) (Errs e) ->
             occurs (Error x ++ ";") (GroupError_Error e)).
Proof.
  destruct e as [l]; simpl. split.
  - induction l as [|[x|] l IH].
    + split; [constructor | reflexivity].
    + destruct (GroupError_Error_entry_by_entry_aux x l) as [H _]. rewrite H. split.
      * intros Hx. apply append_eq_empty in Hx. destruct (Error x); discriminate.
      * intros Hx. inversion Hx; discriminate.
    + change (GroupError_Error (mkGroupError (None :: l)))
        with (GroupError_Error (mkGroupError l)).
      rewrite IH. split; [now constructor | intros Hx; now inversion Hx].
  - intros x. induction l as [|[y|] l IH]; intros Hin; [destruct Hin| |].
    + destruct (GroupError_Error_entry_by_entry_aux y l) as [H _]. rewrite H.
      destruct Hin as [Heq|Hin].
      * inversion Heq; subst. exists ""%string, (GroupError_Error (mkGroupError l)).
        reflexivity.
      * destruct (IH Hin) as (p & q & Hpq).
        exists ((Error y ++ ";") ++ p)%string, q.
        now rewrite Hpq, !append_associative.
    + destruct Hin as [Heq|Hin]; [discriminate|]. exact (IH Hin).
Qed.

(** ** [testutil.EqualSlices] *)

Lemma compareFrom_spec (T1 T2 : Type) (DeepEqual : T1 -> T2 -> bool)
    (expected : list T1) (actual : list T2) (k : nat) :
  List.length expected = List.length actual ->
  match compareFrom DeepEqual k expected actual with
  | Pass => Forall2 (fun x y => DeepEqual x y = true) expected actual
  | FatalAt i =>
      (k <= i)%nat /\
      Forall2 (fun x y => DeepEqual x y = true)
              (firstn (i - k) expected) (firstn (i - k) actual) /\
      exists x y, nth_error expected (i - k) = Some x /\
                  nth_error actual (i - k) = Some y /\ DeepEqual x y = false
  | FatalLength _ _ => False
  end.
Proof.
  revert actual k. induction expected as [|x expected IH]; intros [|y actual] k Hlen;
    simpl in Hlen; try discriminate; simpl.
  - constructor.
  - destruct (DeepEqual x y) eqn:Hxy.
    + specialize (IH actual (S k) ltac:(lia)).
      destruct (compareFrom DeepEqual (S k) expected actual) as [| |i].
      * now constructor.
      * exact IH.
      * destruct IH as (Hle & Hfirst & x' & y' & Hx & Hy & Hne).
        replace (i - k)%nat with (S (i - S k)) by lia. simpl.
        split; [lia|]. split; [now constructor|]. now exists x', y'.
    + split; [lia|]. rewrite Nat.sub_diag. simpl. split; [constructor|].
      now exists x, y.
Qed.

(** X16. [EqualSlices] lets the test go on exactly when the two slices have
    the same length and [reflect.DeepEqual] holds at every index; otherwise
    it stops the test with the two lengths when they differ, and else with
    the first index at which the elements differ. *)
Theorem EqualSlices_first_difference (T1 T2 : Type) (DeepEqual : T1 -> T2 -> bool)
    (expected : list T1) (actual : list T2) :
  match EqualSlices DeepEqual expected actual with
  | Pass => Forall2 (fun x y => DeepEqual x y = true) expected actual
  | FatalLength n m =>
      n = List.length expected /\ m = List.length actual /\ n <> m
  | FatalAt i =>
      List.length expected = List.length actual /\
      Forall2 (fun x y => DeepEqual x y = true) (firstn i expected) (firstn i actual) /\
      exists x y, nth_error expected i = Some x /\ nth_error actual i = Some y /\
                  DeepEqual x y = false
  end /\
  (Forall2 (fun x y => DeepEqual x y = true) expected actual ->
   EqualSlices DeepEqual expected actual = Pass).
Proof.
  unfold EqualSlices. split.
  - destruct (Nat.eqb_spec (List.length expected) (List.length actual)) as [Hlen|Hlen].
    + pose proof (compareFrom_spec DeepEqual expected actual 0 Hlen) as H.
      destruct (compareFrom DeepEqual 0 expected actual) as [| |i]; [exact H|destruct H|].
      rewrite Nat.sub_0_r in H. destruct H as (_ & H1 & H2). auto.
    + auto.
  - intros Hall. rewrite (Forall2_length Hall), Nat.eqb_refl.
    assert (H : forall k, compareFrom DeepEqual k expected actual = Pass).
    { induction Hall as [|x y l l' Hxy _ IH]; intros k; simpl; [reflexivity|].
      rewrite Hxy. apply IH. }
    apply H.
Qed.

(** ** The properties above at concrete inputs *)

Lemma never_more_than_limit_in_flight_witness :
  Z.of_nat (total holds (routines gateTaken)) = 1 /\
  0 <= 1 <= 1 /\ limitInForce gateTakenHistory = Some 1.
Proof.
  apply (@never_more_than_limit_in_flight gateTakenHistory gateTaken 1 1).
  - exists gateTakenSchedule. reflexivity.
  - reflexivity.
Defined.

Lemma TryGo_refuses_exactly_at_capacity_witness :
  Ret (CallTryGo returningBoom) (RBool false) = Ret (CallTryGo returningBoom) (RBool false)
  <-> semaphore (grp gateTaken)
      = Some (Z.of_nat (total holds (routines gateTaken)),
              Z.of_nat (total holds (routines gateTaken))).
Proof.
  apply (@TryGo_refuses_exactly_at_capacity gateTakenHistory gateTaken returningBoom
           (Ret (CallTryGo returningBoom) (RBool false)) gateTaken).
  - exists gateTakenSchedule. reflexivity.
  - reflexivity.
Defined.

Lemma wg_counts_unfinished_goroutines_witness :
  wg (grp gateTaken) = Z.of_nat (total alive (routines gateTaken)) /\
  0 <= wg (grp gateTaken) <= Z.of_nat (List.length (submitted gateTakenHistory)) /\
  (wg (grp gateTaken) = 0 <-> forallb exited (routines gateTaken) = true) /\
  map job (routines gateTaken) = submitted gateTakenHistory.
Proof.
  apply (@wg_counts_unfinished_goroutines gateTakenHistory gateTaken).
  exists gateTakenSchedule. reflexivity.
Defined.

Lemma Wait_returns_after_every_goroutine_witness :
  forallb exited (routines fourTasksAfter) = true /\
  map job (routines fourTasksAfter) = submitted fourTasksEvents /\
  wg (grp fourTasksAfter) = 0 /\
  (forall capacity tokens,
      semaphore (grp fourTasksAfter) = Some (capacity, tokens) -> tokens = 0) /\
  crashed fourTasksAfter = false.
Proof.
  apply (@Wait_returns_after_every_goroutine fourTasksEvents fourTasksWorld AListener
           (Some (joinError fourTasksReports)) fourTasksAfter).
  - exists fourTasks. reflexivity.
  - reflexivity.
Defined.

Lemma listener_started_once_witness :
  listener gateTaken = LIdle <-> submitted gateTakenHistory = [].
Proof.
  apply (@listener_started_once gateTakenHistory gateTaken).
  exists gateTakenSchedule. reflexivity.
Defined.

Lemma Wait_returns_every_failure_once_witness :
  Permutation (entries (Some (joinError fourTasksReports)))
              (failures (submitted fourTasksEvents)).
Proof.
  apply (@Wait_returns_every_failure_once fourTasksEvents fourTasksWorld AListener
           (Some (joinError fourTasksReports)) fourTasksAfter).
  - exists fourTasks. reflexivity.
  - reflexivity.
Defined.

Lemma Wait_shows_each_failing_task_witness :
  exists agg,
    Some (joinError fourTasksReports) = Some agg /\ In errBoom (Unwrap agg) /\
    (forall target, Is errBoom target = true -> Is agg target = true) /\
    occurs (Error errBoom) (Error agg) /\
    (failing (submitted fourTasksEvents) = 1%nat -> Error agg = Error errBoom).
Proof.
  apply (@Wait_shows_each_failing_task fourTasksEvents fourTasksWorld AListener
           (Some (joinError fourTasksReports)) fourTasksAfter returningBoom errBoom).
  - exists fourTasks. reflexivity.
  - reflexivity.
  - vm_compute. auto.
  - reflexivity.
Defined.


Lemma only_the_failure_of_the_task_is_sent_witness :
  exists r,
    nth_error (routines panicWorld) 0 = Some r /\
    fnc (job r) <> Returns None /\
    (forall err, fnc (job r) = Returns (Some err) ->
                 recovered (panicError errBoom) "goroutine 8 [running]:" = err) /\
    (forall msg, fnc (job r) = Panics msg ->
                 recovered (panicError errBoom) "goroutine 8 [running]:"
                 = recovered msg (stack (job r))) /\
    errorChan (grp panicWorld) = false.
Proof.
  apply (@only_the_failure_of_the_task_is_sent panicEvents panicWorld (ARoutine 0) 0
           (recovered (panicError errBoom) "goroutine 8 [running]:")
           (with_listener
              (LRange [recovered (panicError errBoom) "goroutine 8 [running]:"])
              (goto 0 (mkGoroutine panickingBoom (GRecover (panicError errBoom)))
                 GRelease panicWorld))).
  - exists panicSchedule. reflexivity.
  - reflexivity.
Defined.

Lemma GroupError_Error_empty_iff_witness :
  occurs "123;" (GroupError_Error
                   (mkGroupError [None; Some (valueError "123"); Some (valueError "456")])).
Proof.
  apply (proj2 (GroupError_Error_empty_iff
                  (mkGroupError [None; Some (valueError "123"); Some (valueError "456")]))
           (valueError "123")).
  simpl. auto.
Defined.

Lemma EqualSlices_first_difference_witness :
  EqualSlices Nat.eqb [1; 2; 3]%nat [1; 2; 3]%nat = Pass.
Proof.
  apply (proj2 (EqualSlices_first_difference Nat.eqb [1; 2; 3]%nat [1; 2; 3]%nat)).
  repeat constructor.
Defined.
